(** * whereabouts: the orphaned-IP reconciler (pkg/reconciler/iploop.go)

    A shallow embedding of the reconciliation loop and of the interfaces it
    consumes, followed by the properties of a reconciliation pass.

    Go values are modelled as follows.
    - A Go function returning [(T, error)] returns a pair [T * option error];
      a nil slice is the empty list, a nil error is [None].
    - A [for _, x := range xs] loop that appends to a slice is a [Fixpoint]
      over [xs] carrying the slice as an accumulator; an early [return]
      inside the loop ends the recursion.
    - [map[string]bool] is a [gmap string bool].
    - Everything outside the process (the API server holding the pods and
      the IP pools, and the log) is a [World] that is passed explicitly;
      calls that the properties count are recorded in its [trace]. *)

From stdpp Require Import base list strings gmap.
From Stdlib Require Import ZArith.

(** ** pkg/types *)

Module types.

(** Modelled from the spec: [types.IPReservation] is declared outside the
    files at hand; a Reservation has an [address] (an IP value, comparable
    and stringifiable canonically) and an [ownerRef] that may be empty.  The
    address is kept as its canonical text, so that [IP_String] is what
    [net.IP.String()] yields. *)
Record IPReservation := mkIPReservation { IP : string; PodRef : string }.

Definition IP_String (ip : string) : string := ip.

#[global] Instance IPReservation_eq_dec : EqDecision IPReservation.
Proof. solve_decision. Defined.

End types.
Export types.

(** ** Errors and the observable trace *)

(** The errors the pass can return.  The last four are the values built by
    the four [logging.Errorf] calls of iploop.go. *)
Inductive error :=
| NotFound (ownerRef : string)
| CommitConflict
| CommitFailure
| ClientUnavailable
| InventoryUnavailable
| PoolListUnavailable
| FailedToInstantiate (cause : error)
| FailedToRetrievePools (cause : error)
| PodRefMissing (allocation : IPReservation)
| FailedToUpdate (cause : error).

#[global] Instance error_eq_dec : EqDecision error.
Proof. solve_decision. Defined.

Inductive Event :=
| EvErrorf (e : error)
| EvDeallocate (ownerRef : string)
| EvUpdate (pool : nat) (newList : list IPReservation).

#[global] Instance Event_eq_dec : EqDecision Event.
Proof. solve_decision. Defined.

(** ** pkg/storage and pkg/storage/kubernetes: the consumed adapters *)

Module storage.

Record Pod := mkPod { Namespace : string; Name : string }.

(** Modelled from the spec: a Pool is the list of Reservations of one
    network segment plus an opaque version used by the store to detect
    conflicting concurrent writes. *)
Record StoredPool := mkStoredPool {
  version : nat;
  reservations : list IPReservation
}.

Record World := mkWorld {
  connect : option error;
  podList : option (list Pod);
  poolListable : bool;
  pools : list StoredPool;
  trace : list Event
}.

Definition record (ev : Event) (w : World) : World :=
  mkWorld (connect w) (podList w) (poolListable w) (pools w) (trace w ++ [ev]).

Definition setPools (ps : list StoredPool) (w : World) : World :=
  mkWorld (connect w) (podList w) (poolListable w) ps (trace w).

(** Modelled from the spec: [storage.IPPool] is an interface declared
    outside the files at hand.  A pool handle is what [listPools()] hands
    out: the identity of the pool in the store together with the version
    and the reservation list as they were read. *)
Record IPPool := mkIPPool {
  index : nat;
  readVersion : nat;
  snapshot : list IPReservation
}.

(** [Pool.allocations() -> [Reservation]]: the list as read. *)
Definition Allocations (p : IPPool) : list IPReservation := snapshot p.

(** Modelled from the spec: [Pool.update(newList) -> error] with
    optimistic-concurrency semantics: the write is rejected with a conflict
    if the pool changed since it was read; a pool that no longer exists is a
    non-conflict commit failure.  Every invocation is recorded. *)
Definition Update (p : IPPool) (newList : list IPReservation) (w : World)
  : option error * World :=
  let w := record (EvUpdate (index p) newList) w in
  match pools w !! index p with
  | None => (Some CommitFailure, w)
  | Some sp =>
      if decide (version sp = readVersion p)
      then (None, setPools (<[index p := mkStoredPool (S (version sp)) newList]> (pools w)) w)
      else (Some CommitConflict, w)
  end.

End storage.
Export storage.

Module kubernetes.

(** Modelled from the spec: the client of pkg/storage/kubernetes is declared
    outside the files at hand.  [listLiveWorkloads()] returns the complete
    membership or an error; [listPools()] returns one handle per pool. *)
Definition NewClient (w : World) : option error := connect w.

Definition ListPods (w : World) : list Pod * option error :=
  match podList w with
  | Some pods => (pods, None)
  | None => ([], Some InventoryUnavailable)
  end.

Definition ListIPPools (w : World) : list IPPool * option error :=
  if poolListable w
  then (imap (λ i sp, mkIPPool i (version sp) (reservations sp)) (pools w), None)
  else ([], Some PoolListUnavailable).

End kubernetes.

(** ** pkg/logging *)

Module logging.

(** [logging.Errorf] writes the message to the log and returns it as an
    error.  [logging.Debugf] has no effect that the pass observes and is
    left out. *)
Definition Errorf (e : error) (w : World) : error * World :=
  (e, record (EvErrorf e) w).

End logging.

(** ** pkg/allocate *)

Module allocate.

(** Modelled from the spec: [IterateForDeallocation] is declared outside the
    files at hand.  [removeOwner(reservations, ownerRef, matchFn)]: if
    [matchFn] returns the not-found sentinel the primitive fails with
    [NotFound]; on a match the returned list is the input list with exactly
    that one element removed, the order of the others preserved. *)
Definition IterateForDeallocation
    (reservelist : list IPReservation) (containerID : string)
    (matchingFunction : list IPReservation → string → Z)
  : list IPReservation * option IPReservation * option error :=
  let foundidx := matchingFunction reservelist containerID in
  if (foundidx <? 0)%Z
  then (reservelist, None, Some (NotFound containerID))
  else (delete (Z.to_nat foundidx) reservelist,
        reservelist !! Z.to_nat foundidx, None).

End allocate.

(** ** pkg/reconciler *)

Module reconciler.

Record OrphanedIPReservations := mkOrphaned {
  Pool : IPPool;
  Allocations : list IPReservation
}.

(** [ctx] and [k8sClient] give access to the [World], which is passed to
    each method instead. *)
Record ReconcileLooper := mkLooper {
  livePodRefs : list string;
  orphanedIPs : list OrphanedIPReservations
}.

(** The loop of [getPodRefs]. *)
Fixpoint getPodRefs_loop (pods : list Pod) (podRefs : list string) : list string :=
  match pods with
  | [] => podRefs
  | pod :: rest =>
      getPodRefs_loop rest (podRefs ++ [Namespace pod +:+ "/" +:+ Name pod])
  end.

Definition getPodRefs (w : World) : list string * option error :=
  match kubernetes.ListPods w with
  | (_, Some err) => ([], Some err)
  | (pods, None) => (getPodRefs_loop pods [], None)
  end.

Fixpoint isPodAlive_loop (live : list string) (podRef : string) : bool :=
  match live with
  | [] => false
  | livePodRef :: rest =>
      if String.eqb podRef livePodRef then true else isPodAlive_loop rest podRef
  end.

Definition isPodAlive (rl : ReconcileLooper) (podRef : string) : bool :=
  isPodAlive_loop (livePodRefs rl) podRef.

(** The inner loop of [findOrphanedIPsPerPool], over [pool.Allocations()]. *)
Fixpoint scanAllocations (rl : ReconcileLooper) (allocations : list IPReservation)
    (orphanIP : OrphanedIPReservations) (w : World)
  : OrphanedIPReservations * World :=
  match allocations with
  | [] => (orphanIP, w)
  | allocation :: rest =>
      if String.eqb (PodRef allocation) ""
      then scanAllocations rl rest orphanIP
             (snd (logging.Errorf (PodRefMissing allocation) w))
      else if negb (isPodAlive rl (PodRef allocation))
      then scanAllocations rl rest
             (mkOrphaned (Pool orphanIP) (Allocations orphanIP ++ [allocation])) w
      else scanAllocations rl rest orphanIP w
  end.

(** The outer loop of [findOrphanedIPsPerPool], over [ipPools]. *)
Fixpoint scanPools (ipPools : list IPPool) (rl : ReconcileLooper) (w : World)
  : ReconcileLooper * World :=
  match ipPools with
  | [] => (rl, w)
  | pool :: rest =>
      let '(orphanIP, w) :=
        scanAllocations rl (storage.Allocations pool) (mkOrphaned pool []) w in
      if decide (0 < length (Allocations orphanIP))
      then scanPools rest (mkLooper (livePodRefs rl) (orphanedIPs rl ++ [orphanIP])) w
      else scanPools rest rl w
  end.

Definition findOrphanedIPsPerPool (rl : ReconcileLooper) (w : World)
  : ReconcileLooper * option error * World :=
  match kubernetes.ListIPPools w with
  | (_, Some err) =>
      let '(e, w) := logging.Errorf (FailedToRetrievePools err) w in
      (rl, Some e, w)
  | (ipPools, None) =>
      let '(rl, w) := scanPools ipPools rl w in
      (rl, None, w)
  end.

(** The part of [NewReconcileLooper] that follows [getPodRefs]. *)
Definition newLooperWith (podRefs : list string) (w : World)
  : option ReconcileLooper * option error * World :=
  let looper := mkLooper podRefs [] in
  match findOrphanedIPsPerPool looper w with
  | (_, Some err, w) => (None, Some err, w)
  | (looper, None, w) => (Some looper, None, w)
  end.

Definition NewReconcileLooper (w : World)
  : option ReconcileLooper * option error * World :=
  match kubernetes.NewClient w with
  | Some err =>
      let '(e, w) := logging.Errorf (FailedToInstantiate err) w in
      (None, Some e, w)
  | None =>
      match getPodRefs w with
      | (_, Some err) => (None, Some err, w)
      | (podRefs, None) => newLooperWith podRefs w
      end
  end.

(** The closure [matchByPodRef] of [ReconcileIPPools]; [idx] is the index
    of the head of [reservations] in the list being searched. *)
Fixpoint matchByPodRef_from (idx : Z) (reservations : list IPReservation)
    (podRef : string) : Z :=
  match reservations with
  | [] => (-1)%Z
  | v :: rest =>
      if String.eqb (PodRef v) podRef then idx
      else matchByPodRef_from (idx + 1)%Z rest podRef
  end.

Definition matchByPodRef (reservations : list IPReservation) (podRef : string) : Z :=
  matchByPodRef_from 0%Z reservations podRef.

Fixpoint findOutPodRefs_loop (allocations : list IPReservation)
    (podRefsToDeallocate : list string) : list string :=
  match allocations with
  | [] => podRefsToDeallocate
  | orphanedAllocation :: rest =>
      findOutPodRefs_loop rest (podRefsToDeallocate ++ [PodRef orphanedAllocation])
  end.

Definition findOutPodRefsToDeallocateIPsFrom (orphanedIP : OrphanedIPReservations)
  : list string :=
  findOutPodRefs_loop (Allocations orphanedIP) [].

Fixpoint ledger_loop (newIPReservations : list IPReservation)
    (ledger : gmap string bool) : gmap string bool :=
  match newIPReservations with
  | [] => ledger
  | reservation :: rest =>
      ledger_loop rest (<[IP_String (IP reservation) := true]> ledger)
  end.

Fixpoint deleted_loop (ledger : gmap string bool)
    (oldIPReservations : list IPReservation)
    (deletedReservations : list IPReservation) : list IPReservation :=
  match oldIPReservations with
  | [] => deletedReservations
  | reservation :: rest =>
      match ledger !! IP_String (IP reservation) with
      | None => deleted_loop ledger rest (deletedReservations ++ [reservation])
      | Some _ => deleted_loop ledger rest deletedReservations
      end
  end.

Definition computeCleanedUpIPs
    (oldIPReservations newIPReservations : list IPReservation)
  : list IPReservation :=
  let ledger := ledger_loop newIPReservations ∅ in
  deleted_loop ledger oldIPReservations [].

(** The inner loop of [ReconcileIPPools], over [podRefsToDeallocate]; each
    invocation of the deallocation primitive is recorded. *)
Fixpoint deallocate_loop (podRefsToDeallocate : list string)
    (currentIPReservations : list IPReservation) (w : World)
  : list IPReservation * option error * World :=
  match podRefsToDeallocate with
  | [] => (currentIPReservations, None, w)
  | podRef :: rest =>
      let w := record (EvDeallocate podRef) w in
      let '(currentIPReservations, _, err) :=
        allocate.IterateForDeallocation currentIPReservations podRef matchByPodRef in
      match err with
      | Some e => (currentIPReservations, Some e, w)
      | None => deallocate_loop rest currentIPReservations w
      end
  end.

(** The outer loop of [ReconcileIPPools], over [rl.orphanedIPs]. *)
Fixpoint reconcile_loop (orphaned : list OrphanedIPReservations)
    (totalCleanedUpIps : list IPReservation) (w : World)
  : list IPReservation * option error * World :=
  match orphaned with
  | [] => (totalCleanedUpIps, None, w)
  | orphanedIP :: rest =>
      let originalIPReservations := storage.Allocations (Pool orphanedIP) in
      let currentIPReservations := storage.Allocations (Pool orphanedIP) in
      let podRefsToDeallocate := findOutPodRefsToDeallocateIPsFrom orphanedIP in
      match deallocate_loop podRefsToDeallocate currentIPReservations w with
      | (_, Some err, w) => ([], Some err, w)
      | (currentIPReservations, None, w) =>
          match storage.Update (Pool orphanedIP) currentIPReservations w with
          | (Some err, w) =>
              let '(e, w) := logging.Errorf (FailedToUpdate err) w in
              ([], Some e, w)
          | (None, w) =>
              reconcile_loop rest
                (totalCleanedUpIps ++
                   computeCleanedUpIPs originalIPReservations currentIPReservations)
                w
          end
      end
  end.

Definition ReconcileIPPools (rl : ReconcileLooper) (w : World)
  : list IPReservation * option error * World :=
  reconcile_loop (orphanedIPs rl) [] w.

(** Modelled from the spec: [reconcile() -> [RemovedReservation], error] is
    the two phases invoked in order, detect and then reclaim.  [runPass] is
    the same with the live-workload set already captured. *)
Definition runPass (live : list string) (w : World)
  : list IPReservation * option error * World :=
  match newLooperWith live w with
  | (Some rl, None, w) => ReconcileIPPools rl w
  | (_, err, w) => ([], err, w)
  end.

Definition reconcile (w : World) : list IPReservation * option error * World :=
  match NewReconcileLooper w with
  | (Some rl, None, w) => ReconcileIPPools rl w
  | (_, err, w) => ([], err, w)
  end.

End reconciler.
Export reconciler.

(** ** pkg/storage/kubernetes/sriov.go *)

Module sriov.

(** A Go [error] as this file uses it: the text [err.Error()] yields and
    whether [os.IsNotExist(err)] holds. *)
Record oserror := mkError { Error : string; IsNotExist : bool }.

(** [fmt.Errorf] with [%s] and [%v] only: a new error with the formatted
    text, which wraps nothing and so is not a not-exist error. *)
Definition Errorf (msg : string) : oserror := mkError msg false.

(** The part of netlink's [DevlinkDevice] that is read here. *)
Record DevlinkDevEswitchAttr := mkEswitchAttr {
  Mode : string;
  InlineMode : string;
  EncapMode : string
}.
Record DevlinkDevAttrs := mkDevAttrs { Eswitch : DevlinkDevEswitchAttr }.
Record DevlinkDevice := mkDevice {
  BusName : string;
  DeviceName : string;
  Attrs : DevlinkDevAttrs
}.

(** The host as the file reads it: the package variable [sysBusPci], the
    answers of [os.Stat], [os.Readlink] and [os.ReadDir] (the names of the
    entries, in the order returned) for each path, of
    [netlink.DevLinkGetDeviceByName] for each bus and device name, which
    yields a device or an error, and of [sriovnet.GetUplinkRepresentor]. *)
Record Host := mkHost {
  sysBusPci : string;
  Stat : string → option oserror;
  Readlink : string → string * option oserror;
  ReadDir : string → list string * option oserror;
  DevLinkGetDeviceByName : string → string → DevlinkDevice + oserror;
  GetUplinkRepresentor : string → string * option oserror
}.

Definition eswitchModeSwitchdev : string := "switchdev".

(** [strings.Contains]: [substr] occurs in [s] at some position. *)
Fixpoint Contains (s substr : string) : bool :=
  if String.prefix substr s then true
  else match s with
       | EmptyString => false
       | String _ rest => Contains rest substr
       end.

Section Code.

(** [filepath.Join], [filepath.Base] and [strings.ToLower] of the Go
    library. *)
Variable Join : list string → string.
Variable Base : string → string.
Variable ToLower : string → string.

Definition IsSriovVF (h : Host) (pciAddr : string) : bool :=
  let totalVfFilePath := Join [sysBusPci h; pciAddr; "physfn"] in
  match Stat h totalVfFilePath with
  | Some _ => false
  | None => true
  end.

Definition GetPfAddr (h : Host) (pciAddr : string) : string * option oserror :=
  let pfSymLink := Join [sysBusPci h; pciAddr; "physfn"] in
  match Readlink h pfSymLink with
  | (_, Some err) =>
      if IsNotExist err then ("", None)
      else ("", Some (Errorf ("error getting PF for PCI device " +:+ pciAddr
                               +:+ " " +:+ Error err)))
  | (pciinfo, None) => (Base pciinfo, None)
  end.

(** The result is a pointer or an error, never both and never neither. *)
Definition GetDevLinkDeviceEswitchAttrs (h : Host) (pfAddr : string)
  : DevlinkDevEswitchAttr + oserror :=
  match DevLinkGetDeviceByName h "pci" pfAddr with
  | inr err =>
      inr (Errorf ("error getting devlink device attributes for net device "
                   +:+ pfAddr +:+ " " +:+ Error err))
  | inl dev => inl (Eswitch (Attrs dev))
  end.

Definition GetPfEswitchMode (h : Host) (pciAddr : string) : string * option oserror :=
  match GetPfAddr h pciAddr with
  | (_, Some err) =>
      ("", Some (Errorf ("error getting PF PCI address for device " +:+ pciAddr
                          +:+ " " +:+ Error err)))
  | (pfAddr, None) =>
      match GetDevLinkDeviceEswitchAttrs h pfAddr with
      | inr err => ("", Some err)
      | inl devLinkDeviceAttrs => (Mode devLinkDeviceAttrs, None)
      end
  end.

(** The end of [GetPfName]: the name is read from [physfn/net]. *)
Definition pfNameFromSysfs (h : Host) (pciAddr : string) : string * option oserror :=
  let path := Join [sysBusPci h; pciAddr; "physfn"; "net"] in
  match ReadDir h path with
  | (_, Some err) => if IsNotExist err then ("", None) else ("", Some err)
  | (file :: _, None) => (file, None)
  | ([], None) =>
      ("", Some (Errorf ("the PF name is not found for device " +:+ pciAddr)))
  end.

(** [klog.Infof] has no effect on the result and is left out. *)
Definition GetPfName (h : Host) (pciAddr : string) : string * option oserror :=
  if negb (IsSriovVF h pciAddr) then ("", None)
  else
    let '(pfEswitchMode, err) := GetPfEswitchMode h pciAddr in
    if String.eqb pfEswitchMode "" then
      match err with
      | None => pfNameFromSysfs h pciAddr
      | Some e =>
          if Contains (ToLower (Error e))
               "error getting devlink device attributes for net device"
          then pfNameFromSysfs h pciAddr
          else ("", Some e)
      end
    else if String.eqb pfEswitchMode eswitchModeSwitchdev then
      match GetUplinkRepresentor h pciAddr with
      | (_, Some err) => ("", Some err)
      | (name, None) => (name, None)
      end
    else pfNameFromSysfs h pciAddr.

End Code.

End sriov.

(** * Specification-level notions *)

(** A reservation is orphaned with respect to a live-workload set when its
    owner is non-empty and absent from the set. *)
Definition orphaned (live : list string) (r : IPReservation) : Prop :=
  PodRef r ≠ "" ∧ PodRef r ∉ live.

#[global] Instance orphaned_dec live r : Decision (orphaned live r).
Proof. unfold orphaned. apply _. Defined.

Definition orphansOf (live : list string) (l : list IPReservation) :=
  filter (orphaned live) l.

Definition keptOf (live : list string) (l : list IPReservation) :=
  filter (λ r, ¬ orphaned live r) l.

(** The reservations of [l] with an empty owner: the anomalies. *)
Definition anomaliesOf (l : list IPReservation) :=
  filter (λ r, PodRef r = "") l.

(** A world whose trace is extended by some events. *)
Definition extend (evs : list Event) (w : World) : World :=
  mkWorld (connect w) (podList w) (poolListable w) (pools w) (trace w ++ evs).

(** The three components of what a pass returns: the removal list, the
    error, and the world it leaves. *)
Definition removed (res : list IPReservation * option error * World)
  : list IPReservation := res.1.1.
Definition failure (res : list IPReservation * option error * World)
  : option error := res.1.2.
Definition after (res : list IPReservation * option error * World)
  : World := res.2.

(** The lists passed to [Pool.update] for pool [i], in order. *)
Fixpoint updatesOf (i : nat) (evs : list Event) : list (list IPReservation) :=
  match evs with
  | [] => []
  | EvUpdate j l :: rest =>
      if decide (j = i) then l :: updatesOf i rest else updatesOf i rest
  | _ :: rest => updatesOf i rest
  end.


(** The position of the first reservation owned by [p]. *)
Fixpoint firstIndex (p : string) (l : list IPReservation) : option nat :=
  match l with
  | [] => None
  | v :: rest => if String.eqb (PodRef v) p then Some 0 else S <$> firstIndex p rest
  end.

(** The handles [ListIPPools] hands out, numbered from [k]. *)
Fixpoint handlesFrom (k : nat) (pls : list StoredPool) : list IPPool :=
  match pls with
  | [] => []
  | sp :: rest => mkIPPool k (version sp) (reservations sp) :: handlesFrom (S k) rest
  end.

(** The orphan groups the detect phase retains, for pools numbered from [k]. *)
Fixpoint groupsFrom (live : list string) (k : nat) (pls : list StoredPool)
  : list OrphanedIPReservations :=
  match pls with
  | [] => []
  | sp :: rest =>
      match orphansOf live (reservations sp) with
      | [] => groupsFrom live (S k) rest
      | o => mkOrphaned (mkIPPool k (version sp) (reservations sp)) o
               :: groupsFrom live (S k) rest
      end
  end.

(** The anomalies the detect phase logs. *)
Definition anomalyEvents (pls : list StoredPool) : list Event :=
  concat ((λ sp, (λ r, EvErrorf (PodRefMissing r)) <$> anomaliesOf (reservations sp))
            <$> pls).

(** A stored pool after a pass that reclaimed its orphans. *)
Definition reclaimed (live : list string) (sp : StoredPool) : StoredPool :=
  match orphansOf live (reservations sp) with
  | [] => sp
  | _ => mkStoredPool (S (version sp)) (keptOf live (reservations sp))
  end.

(** The events of the reclaim phase, for pools numbered from [k]. *)
Fixpoint reclaimEvents (live : list string) (k : nat) (pls : list StoredPool)
  : list Event :=
  match pls with
  | [] => []
  | sp :: rest =>
      match orphansOf live (reservations sp) with
      | [] => reclaimEvents live (S k) rest
      | o => (EvDeallocate <$> (PodRef <$> o))
               ++ EvUpdate k (keptOf live (reservations sp))
               :: reclaimEvents live (S k) rest
      end
  end.

(** What [computeCleanedUpIPs] reports for a pool: the reservations whose
    address is no longer in the committed list. *)
Definition reportOf (live : list string) (l : list IPReservation)
  : list IPReservation :=
  filter (λ r, IP r ∉ IP <$> keptOf live l) l.

(** The character [/] (code 47), the separator of [getPodRefs]. *)
Definition slash : Ascii.ascii :=
  Ascii.Ascii true true true true false true false false.


(** The pools passed to [Pool.update], in the order of the calls. *)
Fixpoint updatedPools (evs : list Event) : list nat :=
  match evs with
  | [] => []
  | EvUpdate j _ :: rest => j :: updatedPools rest
  | _ :: rest => updatedPools rest
  end.

(** An event of the log, as opposed to a call to a collaborator. *)
Definition isLogEntry (ev : Event) : Prop :=
  match ev with EvErrorf _ => True | _ => False end.

(** * Example stores *)

Module Examples.

Definition resA := mkIPReservation "10.0.0.1" "podA".
Definition resB := mkIPReservation "10.0.0.2" "podB".
Definition resC := mkIPReservation "10.0.0.3" "podC".
Definition resB' := mkIPReservation "10.0.0.4" "podB".
Definition resD := mkIPReservation "10.0.1.1" "podD".
Definition resE := mkIPReservation "10.0.1.2" "podE".
Definition resAnon := mkIPReservation "10.0.0.5" "".

Definition store (pls : list StoredPool) : World :=
  mkWorld None (Some []) true pls [].

(** Scenario A: one pool, [podB] is dead. *)
Definition scenarioA : World := store [mkStoredPool 1 [resA; resB; resC]].

(** Scenario B: a reservation without owner, nobody alive. *)
Definition scenarioB : World := store [mkStoredPool 1 [resAnon]].

(** Scenario C: two pools, only the second has an orphan. *)
Definition scenarioC : World :=
  store [mkStoredPool 1 [resA; resC]; mkStoredPool 4 [resD; resB]].

(** One dead owner holding two reservations of the same pool. *)
Definition twoOfOneOwner : World :=
  store [mkStoredPool 1 [resB; resA; resB']].

(** Two pools with one orphan each, as the detect phase reads them, and the
    same store after another writer allocated [resE] in the second pool. *)
Definition beforeRace : World :=
  store [mkStoredPool 1 [resB]; mkStoredPool 1 [resD]].
Definition afterRace : World :=
  store [mkStoredPool 1 [resB]; mkStoredPool 2 [resD; resE]].
Definition groupB : OrphanedIPReservations :=
  mkOrphaned (mkIPPool 0 1 [resB]) [resB].
Definition groupD : OrphanedIPReservations :=
  mkOrphaned (mkIPPool 1 1 [resD]) [resD].

(** The raced store with a third pool after the one that was written to
    meanwhile, and the group the detect phase had retained for it. *)
Definition afterRaceThree : World :=
  store [mkStoredPool 1 [resB]; mkStoredPool 2 [resD; resE]; mkStoredPool 1 [resC]].
Definition groupC : OrphanedIPReservations :=
  mkOrphaned (mkIPPool 2 1 [resC]) [resC].

(** A pool that breaks the data model: one address reserved twice. *)
Definition sharedAddress : World :=
  store [mkStoredPool 1 [resA; mkIPReservation "10.0.0.1" "podB"]].

(** A cluster whose pod inventory lists [default/web] and [default/db]. *)
Definition resWeb := mkIPReservation "10.0.2.1" "default/web".
Definition resGone := mkIPReservation "10.0.2.2" "default/gone".
Definition cluster : World :=
  mkWorld None (Some [mkPod "default" "web"; mkPod "default" "db"]) true
    [mkStoredPool 3 [resWeb; resGone; resAnon]] [].

(** The same cluster when the pod inventory cannot be enumerated. *)
Definition clusterNoInventory : World :=
  mkWorld None None true [mkStoredPool 3 [resWeb; resGone; resAnon]] [].

(** A looper whose second group names an owner its pool does not hold. *)
Definition groupStale : OrphanedIPReservations :=
  mkOrphaned (mkIPPool 1 1 [resD]) [resE].

End Examples.

(** * Example hosts *)

Module Hosts.

(** Stand-ins for the library functions: joining with [/], the text after
    the last [/], and lower case for the letters A to Z. *)
Definition join (elems : list string) : string := String.concat "/" elems.

Fixpoint base_from (s acc : string) : string :=
  match s with
  | EmptyString => acc
  | String c rest =>
      if Ascii.eqb c slash then base_from rest EmptyString
      else base_from rest (acc +:+ String c EmptyString)
  end.
Definition base (s : string) : string := base_from s EmptyString.

Definition lowerChar (c : Ascii.ascii) : Ascii.ascii :=
  let n := Ascii.N_of_ascii c in
  if (65 <=? n)%N && (n <=? 90)%N then Ascii.ascii_of_N (n + 32) else c.

Fixpoint lower (s : string) : string :=
  match s with
  | EmptyString => EmptyString
  | String c rest => String (lowerChar c) (lower rest)
  end.

Definition notExist : sriov.oserror := sriov.mkError "no such file or directory" true.
Definition noDevice : sriov.oserror := sriov.mkError "no such device" false.

(** A virtual function of the physical function [0000:03:00.0], whose
    network interface is [ens1f0]; the devlink query is not supported. *)
Definition legacyVF : sriov.Host :=
  sriov.mkHost "/sys/bus/pci/devices"
    (λ _, None)
    (λ _, ("../0000:03:00.0", None))
    (λ path, if String.eqb path "/sys/bus/pci/devices/0000:03:02.1/physfn/net"
             then (["ens1f0"; "ens1f0v"], None) else ([], Some notExist))
    (λ _ _, inr noDevice)
    (λ _, ("", Some noDevice)).

(** A device that is not a virtual function: there is no [physfn] link. *)
Definition plainDevice : sriov.Host :=
  sriov.mkHost "/sys/bus/pci/devices"
    (λ _, Some notExist)
    (λ _, ("", Some notExist))
    (λ _, ([], Some notExist))
    (λ bus name,
       if String.eqb name "" then inr noDevice
       else inl (sriov.mkDevice bus name
                   (sriov.mkDevAttrs (sriov.mkEswitchAttr "legacy" "" ""))))
    (λ _, ("", Some noDevice)).

End Hosts.

(** * Lemmas on the loops *)

Section Loops.

Implicit Types (live : list string) (l : list IPReservation) (w : World).

Lemma record_extend ev w : record ev w = extend [ev] w.
Proof. reflexivity. Qed.

Lemma extend_nil w : extend [] w = w.
Proof. destruct w; unfold extend; simpl. by rewrite app_nil_r. Qed.

Lemma extend_extend evs1 evs2 w :
  extend evs2 (extend evs1 w) = extend (evs1 ++ evs2) w.
Proof. unfold extend; simpl. by rewrite app_assoc. Qed.

Lemma eqb_podref_iff (a b : string) : String.eqb a b = true ↔ a = b.
Proof. apply String.eqb_eq. Qed.

Lemma isPodAlive_loop_true live p : isPodAlive_loop live p = true ↔ p ∈ live.
Proof.
  induction live as [|q live IH]; simpl.
  - split; [done | by intros ?%elem_of_nil].
  - destruct (String.eqb_spec p q) as [->|Hne].
    + split; [intros _; apply list_elem_of_here | done].
    + rewrite IH. split; [apply list_elem_of_further|].
      intros [?|?]%elem_of_cons; [done | done].
Qed.

Lemma isPodAlive_false live orph p :
  isPodAlive (mkLooper live orph) p = false ↔ p ∉ live.
Proof.
  unfold isPodAlive; simpl. rewrite <- isPodAlive_loop_true.
  destruct (isPodAlive_loop live p); split; congruence.
Qed.

Lemma getPodRefs_loop_spec pods acc :
  getPodRefs_loop pods acc
  = acc ++ ((λ pod, Namespace pod +:+ "/" +:+ Name pod) <$> pods).
Proof.
  revert acc; induction pods as [|pod pods IH]; intros acc; simpl.
  - by rewrite app_nil_r.
  - by rewrite IH, <- app_assoc.
Qed.

Lemma findOutPodRefs_loop_spec l acc :
  findOutPodRefs_loop l acc = acc ++ (PodRef <$> l).
Proof.
  revert acc; induction l as [|r l IH]; intros acc; simpl.
  - by rewrite app_nil_r.
  - by rewrite IH, <- app_assoc.
Qed.

Lemma scanAllocations_spec live orph l o w :
  scanAllocations (mkLooper live orph) l o w
  = (mkOrphaned (Pool o) (Allocations o ++ orphansOf live l),
     extend ((λ r, EvErrorf (PodRefMissing r)) <$> anomaliesOf l) w).
Proof.
  revert o w; induction l as [|r l IH]; intros o w; simpl.
  - rewrite app_nil_r, extend_nil. by destruct o.
  - unfold orphansOf, anomaliesOf in *.
    destruct (String.eqb_spec (PodRef r) "") as [He|Hne].
    + rewrite IH. unfold logging.Errorf; simpl. rewrite record_extend, extend_extend.
      rewrite (filter_cons_False (orphaned live)) by (intros [? _]; done).
      by rewrite (filter_cons_True (λ r, PodRef r = "")) by done.
    + rewrite (filter_cons_False (λ r, PodRef r = "")) by done.
      destruct (isPodAlive (mkLooper live orph) (PodRef r)) eqn:Hal; simpl.
      * rewrite IH.
        rewrite (filter_cons_False (orphaned live)); [done|].
        intros [_ Hn]. apply (isPodAlive_false live orph) in Hn. congruence.
      * rewrite IH; simpl.
        rewrite (filter_cons_True (orphaned live)).
        -- by rewrite <- app_assoc.
        -- split; [done | by apply (isPodAlive_false live orph)].
Qed.

Lemma imap_handlesFrom k pls :
  imap (λ i sp, mkIPPool (k + i) (version sp) (reservations sp)) pls
  = handlesFrom k pls.
Proof.
  revert k; induction pls as [|sp pls IH]; intros k; [done|].
  rewrite imap_cons; simpl. rewrite Nat.add_0_r. f_equal.
  rewrite <- IH. apply imap_ext. intros i x _; simpl. f_equal. lia.
Qed.

Lemma scanPools_spec live orph k pls w :
  scanPools (handlesFrom k pls) (mkLooper live orph) w
  = (mkLooper live (orph ++ groupsFrom live k pls), extend (anomalyEvents pls) w).
Proof.
  revert orph k w; induction pls as [|sp pls IH]; intros orph k w; simpl.
  - by rewrite app_nil_r, extend_nil.
  - unfold storage.Allocations; simpl. rewrite scanAllocations_spec; simpl.
    unfold anomalyEvents; simpl.
    destruct (orphansOf live (reservations sp)) as [|r o] eqn:Ho; simpl.
    + by rewrite IH, extend_extend.
    + rewrite IH, extend_extend. by rewrite <- app_assoc.
Qed.

End Loops.

(** * The match function and the deallocation primitive *)

Section Deallocation.

Implicit Types (live : list string) (l : list IPReservation) (w : World).

Lemma matchByPodRef_from_firstIndex k l p :
  matchByPodRef_from k l p
  = match firstIndex p l with
    | Some i => (k + Z.of_nat i)%Z
    | None => (-1)%Z
    end.
Proof.
  revert k; induction l as [|v l IH]; intros k; simpl; [done|].
  destruct (String.eqb (PodRef v) p); simpl; [lia|].
  rewrite IH. destruct (firstIndex p l); simpl; lia.
Qed.

Lemma firstIndex_Some p l i :
  firstIndex p l = Some i →
  ∃ r, l !! i = Some r ∧ PodRef r = p ∧ Forall (λ r', PodRef r' ≠ p) (take i l).
Proof.
  revert i; induction l as [|v l IH]; intros i; simpl; [done|].
  destruct (String.eqb_spec (PodRef v) p) as [He|Hne].
  - intros [= <-]. exists v. simpl. by repeat split.
  - destruct (firstIndex p l) as [j|]; simpl; [|done].
    intros [= <-]. destruct (IH j eq_refl) as (r & Hr & Hp & Hall).
    exists r. simpl. repeat split; [done..|]. by constructor.
Qed.

Lemma firstIndex_None p l :
  firstIndex p l = None ↔ Forall (λ r, PodRef r ≠ p) l.
Proof.
  induction l as [|v l IH]; simpl.
  - split; [constructor | done].
  - destruct (String.eqb_spec (PodRef v) p) as [He|Hne].
    + split; [done|]. by intros [? _]%Forall_cons.
    + destruct (firstIndex p l) as [j|]; simpl.
      * split; [done|]. intros [_ Hl]%Forall_cons. by apply IH in Hl.
      * split; [|done]. intros _. constructor; [done | by apply IH].
Qed.

Lemma IterateForDeallocation_matchByPodRef l p :
  allocate.IterateForDeallocation l p matchByPodRef
  = match firstIndex p l with
    | Some i => (delete i l, l !! i, None)
    | None => (l, None, Some (NotFound p))
    end.
Proof.
  unfold allocate.IterateForDeallocation, matchByPodRef.
  rewrite matchByPodRef_from_firstIndex.
  destruct (firstIndex p l) as [i|]; simpl; [|done].
  destruct (Z.ltb_spec (0 + Z.of_nat i) 0); [lia|].
  by rewrite Z.add_0_l, Nat2Z.id.
Qed.

(** A reservation that none of the targets names stays at the head. *)
Lemma deallocate_loop_skip ts x l w :
  Forall (λ p, PodRef x ≠ p) ts →
  deallocate_loop ts (x :: l) w
  = let '(c, e, w') := deallocate_loop ts l w in (x :: c, e, w').
Proof.
  revert l w; induction ts as [|p ts IH]; intros l w Hall; simpl; [done|].
  apply Forall_cons in Hall as [Hp Hts].
  rewrite !IterateForDeallocation_matchByPodRef; simpl.
  destruct (String.eqb_spec (PodRef x) p) as [?|_]; [done|].
  destruct (firstIndex p l) as [i|]; simpl; [|done].
  by apply IH.
Qed.

(** Removing the owners of the orphans, one target per orphan and first
    match each time, leaves exactly the reservations that are not orphaned
    and never fails. *)
Lemma deallocate_loop_orphans live l w :
  deallocate_loop (PodRef <$> orphansOf live l) l w
  = (keptOf live l, None, extend (EvDeallocate <$> (PodRef <$> orphansOf live l)) w).
Proof.
  revert w; induction l as [|x l IH]; intros w.
  - simpl. by rewrite extend_nil.
  - unfold orphansOf, keptOf in *. destruct (decide (orphaned live x)) as [Ho|Hno].
    + rewrite (filter_cons_True (orphaned live)) by done.
      rewrite (filter_cons_False (λ r, ¬ orphaned live r)) by tauto.
      simpl. rewrite IterateForDeallocation_matchByPodRef; simpl.
      rewrite String.eqb_refl; simpl. rewrite IH.
      by rewrite record_extend, extend_extend.
    + rewrite (filter_cons_False (orphaned live)) by done.
      rewrite (filter_cons_True (λ r, ¬ orphaned live r)) by done.
      rewrite deallocate_loop_skip, IH; [done|].
      apply Forall_forall. intros p (r & -> & [Hr _]%list_elem_of_filter)%list_elem_of_fmap Heq.
      apply Hno. unfold orphaned in *. by rewrite Heq.
Qed.

Lemma deallocate_loop_trace ts l w :
  ∃ n, trace (deallocate_loop ts l w).2 = trace w ++ (EvDeallocate <$> take n ts)
       ∧ pools (deallocate_loop ts l w).2 = pools w.
Proof.
  revert l w; induction ts as [|p ts IH]; intros l w; simpl.
  - exists 0. by rewrite app_nil_r.
  - rewrite IterateForDeallocation_matchByPodRef.
    destruct (firstIndex p l) as [i|]; simpl.
    + destruct (IH (delete i l) (record (EvDeallocate p) w)) as (n & Ht & Hp).
      exists (S n). rewrite Ht, Hp. simpl. by rewrite <- app_assoc.
    + by exists 1.
Qed.

Lemma deallocate_loop_error ts l w c e w' :
  deallocate_loop ts l w = (c, Some e, w') → ∃ p, p ∈ ts ∧ e = NotFound p.
Proof.
  revert l w; induction ts as [|p ts IH]; intros l w; simpl; [done|].
  rewrite IterateForDeallocation_matchByPodRef.
  destruct (firstIndex p l) as [i|]; simpl.
  - intros (q & Hq & ->)%IH. exists q. split; [by apply list_elem_of_further | done].
  - intros [= <- <- <-]. exists p. split; [apply list_elem_of_here | done].
Qed.

End Deallocation.

(** * The removal report *)

Section Report.

Implicit Types (live : list string) (l : list IPReservation).

Lemma filter_ext_elem {A} (P Q : A → Prop) `{!∀ x, Decision (P x)}
    `{!∀ x, Decision (Q x)} (l : list A) :
  (∀ x, x ∈ l → P x ↔ Q x) → filter P l = filter Q l.
Proof.
  induction l as [|x l IH]; intros Hext; [done|].
  rewrite !filter_cons.
  rewrite IH by (intros y Hy; apply Hext; by apply list_elem_of_further).
  pose proof (Hext x (list_elem_of_here _ _)) as Hx.
  destruct (decide (P x)), (decide (Q x)); first [done | exfalso; tauto].
Qed.

Lemma ledger_loop_lookup new (m : gmap string bool) k :
  ledger_loop new m !! k
  = if decide (k ∈ IP <$> new) then Some true else m !! k.
Proof.
  revert m; induction new as [|r new IH]; intros m; [done|].
  cbn [ledger_loop]. rewrite IH, fmap_cons. unfold IP_String.
  destruct (decide (k ∈ IP <$> new)) as [Hin|Hnin].
  - rewrite decide_True; [done | by apply list_elem_of_further].
  - destruct (decide (k = IP r)) as [->|Hne].
    + rewrite decide_True by apply list_elem_of_here. by rewrite lookup_insert_eq.
    + rewrite decide_False by (intros [?|?]%elem_of_cons; done).
      by rewrite lookup_insert_ne.
Qed.

Lemma deleted_loop_spec (ledger : gmap string bool) old acc :
  deleted_loop ledger old acc
  = acc ++ filter (λ r, ledger !! IP r = None) old.
Proof.
  revert acc; induction old as [|r old IH]; intros acc; simpl.
  - by rewrite app_nil_r.
  - unfold IP_String. rewrite filter_cons.
    destruct (ledger !! IP r) as [b|] eqn:Hl.
    + rewrite IH. by rewrite decide_False by done.
    + rewrite IH, <- app_assoc. by rewrite decide_True by done.
Qed.

Lemma computeCleanedUpIPs_spec old new :
  computeCleanedUpIPs old new = filter (λ r, IP r ∉ IP <$> new) old.
Proof.
  unfold computeCleanedUpIPs. rewrite deleted_loop_spec; simpl.
  apply list_filter_iff. intros r. rewrite ledger_loop_lookup.
  destruct (decide (IP r ∈ IP <$> new)); split; done.
Qed.

Lemma filter_none {A} (P : A → Prop) `{!∀ x, Decision (P x)} (l : list A) :
  (∀ x, x ∈ l → ¬ P x) → filter P l = [].
Proof.
  induction l as [|x l IH]; intros Hno; [done|].
  rewrite filter_cons_False by (apply Hno, list_elem_of_here).
  apply IH. intros y Hy. by apply Hno, list_elem_of_further.
Qed.

Lemma reportOf_clean live l : orphansOf live l = [] → reportOf live l = [].
Proof.
  intros Hnil. unfold reportOf, keptOf. apply filter_none.
  intros r Hr Hn. apply Hn, list_elem_of_fmap_2, list_elem_of_filter.
  split; [|done]. intros Ho.
  by apply (filter_nil_not_elem_of (orphaned live) l r Hnil Ho).
Qed.

Lemma NoDup_fmap_inj_elem {A B} (f : A → B) (l : list A) x y :
  NoDup (f <$> l) → x ∈ l → y ∈ l → f x = f y → x = y.
Proof.
  induction l as [|z l IH]; simpl; [by intros _ ?%elem_of_nil|].
  intros [Hz Hnd]%NoDup_cons [->|Hx]%elem_of_cons [->|Hy]%elem_of_cons Heq; auto.
  - exfalso. apply Hz. rewrite Heq. by apply list_elem_of_fmap_2.
  - exfalso. apply Hz. rewrite <- Heq. by apply list_elem_of_fmap_2.
Qed.

(** With unique addresses, the address difference is the orphan subset. *)
Lemma reportOf_NoDup live l :
  NoDup (IP <$> l) → reportOf live l = orphansOf live l.
Proof.
  intros Hnd. unfold reportOf, orphansOf, keptOf.
  apply filter_ext_elem. intros r Hr. split.
  - intros Hn. destruct (decide (orphaned live r)) as [|Hno]; [done|].
    exfalso. apply Hn. apply list_elem_of_fmap_2. by apply list_elem_of_filter.
  - intros Ho (r' & Heq & [Hno Hr']%list_elem_of_filter)%list_elem_of_fmap.
    apply Hno. by rewrite <- (NoDup_fmap_inj_elem IP l r r' Hnd Hr Hr' Heq).
Qed.

(** Whatever the addresses, nothing that was kept is reported. *)
Lemma reportOf_orphaned_or_shadowed live l r :
  r ∈ reportOf live l → r ∈ l ∧ orphaned live r.
Proof.
  unfold reportOf, keptOf. intros [Hn Hr]%list_elem_of_filter. split; [done|].
  destruct (decide (orphaned live r)) as [|Hno]; [done|].
  exfalso. apply Hn. apply list_elem_of_fmap_2. by apply list_elem_of_filter.
Qed.

End Report.

(** * The reclaim phase on what the detect phase found *)

Section Pass.

Implicit Types (live : list string) (l : list IPReservation) (w : World).

Lemma lookup_middle_length {A} (l1 l2 : list A) x :
  (l1 ++ x :: l2) !! length l1 = Some x.
Proof. induction l1; [done | by simpl]. Qed.

Lemma insert_middle_length {A} (l1 l2 : list A) x y :
  <[length l1 := y]> (l1 ++ x :: l2) = l1 ++ y :: l2.
Proof. induction l1 as [|z l1 IH]; [done | simpl; by rewrite IH]. Qed.

(** An update through a handle that is still current succeeds. *)
Lemma Update_current done sp rest allocs new w :
  pools w = done ++ sp :: rest →
  storage.Update (mkIPPool (length done) (version sp) allocs) new w
  = (None, mkWorld (connect w) (podList w) (poolListable w)
             (done ++ mkStoredPool (S (version sp)) new :: rest)
             (trace w ++ [EvUpdate (length done) new])).
Proof.
  intros Hp. unfold storage.Update; simpl. rewrite Hp, lookup_middle_length.
  rewrite decide_True by done. unfold setPools; simpl.
  by rewrite insert_middle_length.
Qed.

Lemma reconcile_loop_detected live pls done total w :
  pools w = done ++ pls →
  reconcile_loop (groupsFrom live (length done) pls) total w
  = (total ++ concat ((λ sp, reportOf live (reservations sp)) <$> pls), None,
     mkWorld (connect w) (podList w) (poolListable w)
       (done ++ (reclaimed live <$> pls))
       (trace w ++ reclaimEvents live (length done) pls)).
Proof.
  revert done total w; induction pls as [|sp pls IH]; intros done total w Hp.
  - simpl. rewrite !app_nil_r. rewrite app_nil_r in Hp. destruct w; simpl in *.
    by subst.
  - cbn [groupsFrom reclaimEvents fmap list_fmap concat]. unfold reclaimed at 1.
    destruct (orphansOf live (reservations sp)) as [|r o] eqn:Ho.
    + rewrite (reportOf_clean live _ Ho); simpl.
      rewrite <- (last_length done sp).
      rewrite (IH (done ++ [sp]) total w) by (by rewrite <- app_assoc).
      by rewrite <- app_assoc.
    + cbn [reconcile_loop]. unfold findOutPodRefsToDeallocateIPsFrom.
      cbn [Pool Allocations storage.Allocations snapshot].
      rewrite findOutPodRefs_loop_spec, app_nil_l, <- Ho.
      rewrite deallocate_loop_orphans.
      rewrite (Update_current done sp pls) by done.
      rewrite computeCleanedUpIPs_spec. fold (reportOf live (reservations sp)).
      rewrite <- (last_length done
                    (mkStoredPool (S (version sp)) (keptOf live (reservations sp)))).
      rewrite (IH (done ++ [mkStoredPool (S (version sp)) (keptOf live (reservations sp))]))
        by (simpl; by rewrite <- app_assoc).
      simpl. rewrite <- !app_assoc. simpl. by rewrite Ho.
Qed.

Lemma newLooperWith_spec live w :
  poolListable w = true →
  newLooperWith live w
  = (Some (mkLooper live (groupsFrom live 0 (pools w))), None,
     extend (anomalyEvents (pools w)) w).
Proof.
  intros Hl. unfold newLooperWith, findOrphanedIPsPerPool, kubernetes.ListIPPools.
  rewrite Hl. rewrite (imap_handlesFrom 0), scanPools_spec. done.
Qed.

Lemma newLooperWith_unlistable live w :
  poolListable w = false →
  newLooperWith live w
  = (None, Some (FailedToRetrievePools PoolListUnavailable),
     extend [EvErrorf (FailedToRetrievePools PoolListUnavailable)] w).
Proof.
  intros Hl. unfold newLooperWith, findOrphanedIPsPerPool, kubernetes.ListIPPools.
  by rewrite Hl.
Qed.

(** A pass over a listable store: what it returns and what it leaves. *)
Lemma runPass_spec live w :
  poolListable w = true →
  runPass live w
  = (concat ((λ sp, reportOf live (reservations sp)) <$> pools w), None,
     mkWorld (connect w) (podList w) (poolListable w)
       (reclaimed live <$> pools w)
       (trace w ++ anomalyEvents (pools w) ++ reclaimEvents live 0 (pools w))).
Proof.
  intros Hl. unfold runPass. rewrite newLooperWith_spec by done.
  unfold ReconcileIPPools; simpl.
  rewrite (reconcile_loop_detected live (pools w) [] []) by done.
  simpl. by rewrite <- app_assoc.
Qed.

Lemma runPass_unlistable live w :
  poolListable w = false →
  runPass live w
  = ([], Some (FailedToRetrievePools PoolListUnavailable),
     extend [EvErrorf (FailedToRetrievePools PoolListUnavailable)] w).
Proof. intros Hl. unfold runPass. by rewrite newLooperWith_unlistable. Qed.

(** [reconcile] is [runPass] on the live set that [getPodRefs] builds. *)
Lemma reconcile_runPass w pods :
  connect w = None → podList w = Some pods →
  reconcile w = runPass ((λ pod, Namespace pod +:+ "/" +:+ Name pod) <$> pods) w.
Proof.
  intros Hc Hpods. unfold reconcile, runPass, NewReconcileLooper.
  unfold kubernetes.NewClient, getPodRefs, kubernetes.ListPods.
  by rewrite Hc, Hpods, getPodRefs_loop_spec.
Qed.

End Pass.

(** * Facts about traces, groups and the reclaimed store *)

Section Facts.

Implicit Types (live : list string) (l : list IPReservation) (w : World).

Lemma updatesOf_app i evs1 evs2 :
  updatesOf i (evs1 ++ evs2) = updatesOf i evs1 ++ updatesOf i evs2.
Proof.
  induction evs1 as [|[e|p|j l] evs1 IH]; simpl; try done.
  destruct (decide (j = i)); simpl; by rewrite IH.
Qed.

Lemma updatesOf_deallocations i (ts : list string) :
  updatesOf i (EvDeallocate <$> ts) = [].
Proof. induction ts; [done | by simpl]. Qed.

Lemma updatesOf_anomalies i pls : updatesOf i (anomalyEvents pls) = [].
Proof.
  unfold anomalyEvents. induction pls as [|sp pls IH]; [done|].
  rewrite fmap_cons. cbn [concat]. rewrite updatesOf_app, IH, app_nil_r.
  induction (anomaliesOf (reservations sp)); [done | by simpl].
Qed.

Lemma updatesOf_reclaimEvents live i k pls :
  updatesOf i (reclaimEvents live k pls)
  = if decide (k ≤ i) then
      match pls !! (i - k) with
      | Some sp =>
          match orphansOf live (reservations sp) with
          | [] => []
          | _ => [keptOf live (reservations sp)]
          end
      | None => []
      end
    else [].
Proof.
  revert k; induction pls as [|sp pls IH]; intros k.
  - simpl. by destruct (decide (k ≤ i)).
  - cbn [reclaimEvents].
    assert (Hrest : updatesOf i (reclaimEvents live (S k) pls)
                    = if decide (k < i) then
                        match pls !! (i - S k) with
                        | Some sp =>
                            match orphansOf live (reservations sp) with
                            | [] => []
                            | _ => [keptOf live (reservations sp)]
                            end
                        | None => []
                        end
                      else []).
    { rewrite IH. destruct (decide (S k ≤ i)), (decide (k < i)); done || lia. }
    assert (Hhead :
      updatesOf i
        match orphansOf live (reservations sp) with
        | [] => reclaimEvents live (S k) pls
        | o => (EvDeallocate <$> (PodRef <$> o))
                 ++ EvUpdate k (keptOf live (reservations sp))
                 :: reclaimEvents live (S k) pls
        end
      = (if decide (k = i) then
           match orphansOf live (reservations sp) with
           | [] => []
           | _ => [keptOf live (reservations sp)]
           end
         else []) ++ updatesOf i (reclaimEvents live (S k) pls)).
    { destruct (orphansOf live (reservations sp)) as [|r o].
      - by destruct (decide (k = i)).
      - rewrite updatesOf_app, updatesOf_deallocations. cbn [updatesOf app].
        by destruct (decide (k = i)). }
    rewrite Hhead, Hrest. destruct (decide (k = i)) as [->|Hne].
    + destruct (decide (i < i)); [lia|]. destruct (decide (i ≤ i)); [|lia].
      rewrite Nat.sub_diag; simpl. by rewrite app_nil_r.
    + destruct (decide (k ≤ i)), (decide (k < i)); try (exfalso; lia); [|done].
      by replace (i - k) with (S (i - S k)) by lia.
Qed.

Lemma groupsFrom_elem live k pls g :
  g ∈ groupsFrom live k pls →
  ∃ j sp, pls !! j = Some sp
    ∧ g = mkOrphaned (mkIPPool (k + j) (version sp) (reservations sp))
                     (orphansOf live (reservations sp))
    ∧ orphansOf live (reservations sp) ≠ [].
Proof.
  revert k; induction pls as [|sp pls IH]; intros k; simpl.
  - by intros ?%elem_of_nil.
  - intros Hg.
    assert (Hrest : g ∈ groupsFrom live (S k) pls →
      ∃ j sp0, (sp :: pls) !! j = Some sp0
        ∧ g = mkOrphaned (mkIPPool (k + j) (version sp0) (reservations sp0))
                         (orphansOf live (reservations sp0))
        ∧ orphansOf live (reservations sp0) ≠ []).
    { intros (j & sp0 & Hj & -> & Hne)%IH. exists (S j), sp0.
      repeat split; [done| |done]. do 2 f_equal. lia. }
    destruct (orphansOf live (reservations sp)) as [|r o] eqn:Ho; [by apply Hrest|].
    apply elem_of_cons in Hg as [->|Hg]; [|by apply Hrest].
    exists 0, sp. rewrite Nat.add_0_r, Ho. by repeat split.
Qed.

Lemma keptOf_clean live l : orphansOf live l = [] → keptOf live l = l.
Proof.
  intros Hnil. unfold keptOf. induction l as [|x l IH]; [done|].
  unfold orphansOf in Hnil. rewrite filter_cons in Hnil.
  destruct (decide (orphaned live x)); [done|].
  rewrite filter_cons_True by done. f_equal. by apply IH.
Qed.

Lemma orphansOf_keptOf live l : orphansOf live (keptOf live l) = [].
Proof.
  unfold orphansOf, keptOf. apply filter_none.
  by intros r [Hno _]%list_elem_of_filter.
Qed.

Lemma reservations_reclaimed live sp :
  reservations (reclaimed live sp) = keptOf live (reservations sp).
Proof.
  unfold reclaimed.
  destruct (orphansOf live (reservations sp)) eqn:Ho; [|done].
  by rewrite keptOf_clean.
Qed.

Lemma reclaimed_clean live sp :
  orphansOf live (reservations (reclaimed live sp)) = [].
Proof. rewrite reservations_reclaimed. apply orphansOf_keptOf. Qed.

Lemma reclaimEvents_clean live k pls :
  Forall (λ sp, orphansOf live (reservations sp) = []) pls →
  reclaimEvents live k pls = [].
Proof.
  revert k; induction pls as [|sp pls IH]; intros k Hall; [done|].
  apply Forall_cons in Hall as [Hsp Hall]. simpl. rewrite Hsp. by apply IH.
Qed.

Lemma length_keptOf live l :
  length (keptOf live l) = length l - length (orphansOf live l).
Proof.
  unfold keptOf, orphansOf. induction l as [|x l IH]; [done|].
  rewrite !filter_cons.
  pose proof (length_filter (orphaned live) l).
  destruct (decide (orphaned live x)), (decide (¬ orphaned live x));
    simpl; try tauto; lia.
Qed.





End Facts.

(** * The reclaim phase on an arbitrary looper *)

Section Reclaim.

Implicit Types (live : list string) (l : list IPReservation) (w : World).

Lemma reconcile_loop_app pre rest total w :
  reconcile_loop (pre ++ rest) total w
  = match reconcile_loop pre total w with
    | (tot, None, w1) => reconcile_loop rest tot w1
    | (tot, Some e, w1) => (tot, Some e, w1)
    end.
Proof.
  revert total w; induction pre as [|g pre IH]; intros total w; [done|].
  cbn [app reconcile_loop].
  destruct (deallocate_loop _ _ w) as [[cur [e|]] w2]; [done|].
  destruct (storage.Update _ cur w2) as [[e|] w3]; [done|].
  apply IH.
Qed.

Lemma reconcile_loop_error_nil groups total w e :
  failure (reconcile_loop groups total w) = Some e →
  removed (reconcile_loop groups total w) = [].
Proof.
  unfold failure, removed. revert total w; induction groups as [|g groups IH]; intros total w; [done|].
  cbn [reconcile_loop].
  destruct (deallocate_loop _ _ w) as [[cur [e'|]] w2]; [done|].
  destruct (storage.Update _ cur w2) as [[e'|] w3]; [done|].
  apply IH.
Qed.

Lemma Update_frame p new w j :
  index p ≠ j → pools (storage.Update p new w).2 !! j = pools w !! j.
Proof.
  intros Hne. unfold storage.Update; simpl.
  destruct (pools w !! index p) as [sp|]; [|done].
  destruct (decide (version sp = readVersion p)); [|done].
  simpl. by rewrite list_lookup_insert_ne.
Qed.

Lemma Update_failure_pools p new w e w' :
  storage.Update p new w = (Some e, w') →
  pools w' = pools w ∧ trace w' = trace w ++ [EvUpdate (index p) new].
Proof.
  unfold storage.Update; simpl.
  destruct (pools w !! index p) as [sp|].
  - destruct (decide (version sp = readVersion p)); [done|]. by intros [= <- <-].
  - by intros [= <- <-].
Qed.

Lemma reconcile_loop_frame pre total w j :
  Forall (λ g, index (Pool g) ≠ j) pre →
  pools (after (reconcile_loop pre total w)) !! j = pools w !! j.
Proof.
  unfold after. revert total w; induction pre as [|g pre IH]; intros total w Hall; [done|].
  apply Forall_cons in Hall as [Hg Hall]. cbn [reconcile_loop].
  destruct (deallocate_loop_trace (findOutPodRefsToDeallocateIPsFrom g)
              (storage.Allocations (Pool g)) w) as (n & _ & Hp).
  destruct (deallocate_loop _ _ w) as [[cur [e|]] w2]; simpl in Hp.
  { simpl. by rewrite Hp. }
  pose proof (Update_frame (Pool g) cur w2 j Hg) as Hu.
  destruct (storage.Update _ cur w2) as [[e|] w3]; simpl in Hu.
  { simpl. by rewrite Hu, Hp. }
  by rewrite IH, Hu, Hp.
Qed.

Lemma elem_of_concat {A} (ls : list (list A)) (x : A) :
  x ∈ concat ls ↔ ∃ xs, xs ∈ ls ∧ x ∈ xs.
Proof.
  rewrite list_elem_of_In, in_concat. split.
  - intros (xs & Hl & Hx). exists xs. by rewrite !list_elem_of_In.
  - intros (xs & Hl & Hx). exists xs. by rewrite <- !list_elem_of_In.
Qed.

(** A reservation that is not orphaned survives any pass: it stays in its
    pool, it is not reported, and every list committed for its pool holds it. *)
Lemma kept_reservation_survives live w i sp r :
  pools w !! i = Some sp → r ∈ reservations sp → ¬ orphaned live r →
  (∃ sp', pools (after (runPass live w)) !! i = Some sp' ∧ r ∈ reservations sp')
  ∧ (r ∉ removed (runPass live w))
  ∧ (∃ evs, trace (after (runPass live w)) = trace w ++ evs
            ∧ ∀ l, l ∈ updatesOf i evs → r ∈ l).
Proof.
  intros Hi Hr Hno. unfold removed, after.
  assert (Hk : r ∈ keptOf live (reservations sp)) by by apply list_elem_of_filter.
  destruct (poolListable w) eqn:Hl.
  - rewrite runPass_spec by done. cbn [fst snd pools trace]. repeat split.
    + exists (reclaimed live sp). rewrite list_lookup_fmap, Hi. split; [done|].
      by rewrite reservations_reclaimed.
    + intros (l & (sp0 & -> & _)%list_elem_of_fmap & Hin)%elem_of_concat.
      by apply reportOf_orphaned_or_shadowed in Hin as [_ ?].
    + eexists. split; [done|]. intros l.
      rewrite updatesOf_app, updatesOf_anomalies, app_nil_l.
      rewrite updatesOf_reclaimEvents, decide_True by lia.
      rewrite Nat.sub_0_r, Hi.
      destruct (orphansOf live (reservations sp)); [by intros ?%elem_of_nil|].
      by intros ->%list_elem_of_singleton.
  - rewrite runPass_unlistable by done. cbn [fst snd pools trace extend]. repeat split.
    + by exists sp.
    + by intros ?%elem_of_nil.
    + eexists. split; [done|]. simpl. by intros l ?%elem_of_nil.
Qed.

End Reclaim.

(** * Properties of a reconciliation pass *)

Section Claims.

Implicit Types (live : list string) (l : list IPReservation) (w : World).

(** C1. Exact set difference: on a store whose pools have unique addresses,
    a pass reports, pool by pool, exactly the reservations whose owner is
    non-empty and absent from the live set, and leaves in each pool exactly
    the others, in their order. *)
Theorem exact_set_difference live w :
  poolListable w = true →
  Forall (λ sp, NoDup (IP <$> reservations sp)) (pools w) →
  removed (runPass live w)
    = concat ((λ sp, filter (orphaned live) (reservations sp)) <$> pools w)
  ∧ failure (runPass live w) = None
  ∧ reservations <$> pools (after (runPass live w))
    = (λ sp, filter (λ r, ¬ orphaned live r) (reservations sp)) <$> pools w.
Proof.
  intros Hl Hnd. rewrite runPass_spec by done.
  unfold removed, failure, after; cbn [fst snd pools]. repeat split.
  - f_equal. induction Hnd as [|sp pls Hsp _ IH]; [done|].
    rewrite !fmap_cons. f_equal; [|done]. by apply reportOf_NoDup.
  - rewrite <- list_fmap_compose. apply list_fmap_ext.
    intros i sp _. apply reservations_reclaimed.
Qed.

Lemma exact_set_difference_scenario_A :
  removed (runPass ["podA"; "podC"] Examples.scenarioA) = [Examples.resB]
  ∧ failure (runPass ["podA"; "podC"] Examples.scenarioA) = None
  ∧ reservations <$> pools (after (runPass ["podA"; "podC"] Examples.scenarioA))
    = [[Examples.resA; Examples.resC]].
Proof.
  apply (exact_set_difference ["podA"; "podC"] Examples.scenarioA).
  - reflexivity.
  - apply (bool_decide_unpack _). vm_compute. exact I.
Defined.

(** The report is computed by address, so it sees an orphan only if no kept
    reservation of the pool shares its address: uniqueness of the addresses
    within a pool, which the data model requires, is used by C1. *)
Remark report_is_by_address :
  reservations <$> pools (after (runPass ["podA"] Examples.sharedAddress))
    = [[Examples.resA]]
  ∧ removed (runPass ["podA"] Examples.sharedAddress) = [].
Proof. by vm_compute. Qed.

(** C2. Non-owner preservation: a reservation whose owner is in the live
    set stays in its pool with the same address and owner, is in every list
    committed for that pool through [Pool.update], and is not reported. *)
Theorem live_owner_preserved live w i sp r :
  pools w !! i = Some sp → r ∈ reservations sp → PodRef r ∈ live →
  (∃ sp', pools (after (runPass live w)) !! i = Some sp' ∧ r ∈ reservations sp')
  ∧ (r ∉ removed (runPass live w))
  ∧ (∃ evs, trace (after (runPass live w)) = trace w ++ evs
            ∧ ∀ l, l ∈ updatesOf i evs → r ∈ l).
Proof.
  intros Hi Hr Hlive. apply (kept_reservation_survives live w i sp r Hi Hr).
  by intros [_ Hdead].
Qed.

Lemma live_owner_preserved_scenario_A :
  (∃ sp', pools (after (runPass ["podA"; "podC"] Examples.scenarioA)) !! 0 = Some sp'
          ∧ Examples.resA ∈ reservations sp')
  ∧ (Examples.resA ∉ removed (runPass ["podA"; "podC"] Examples.scenarioA))
  ∧ (∃ evs, trace (after (runPass ["podA"; "podC"] Examples.scenarioA))
            = trace Examples.scenarioA ++ evs
            ∧ ∀ l, l ∈ updatesOf 0 evs → Examples.resA ∈ l).
Proof.
  apply (live_owner_preserved ["podA"; "podC"] Examples.scenarioA 0
           (mkStoredPool 1 [Examples.resA; Examples.resB; Examples.resC])).
  - reflexivity.
  - apply list_elem_of_here.
  - apply list_elem_of_here.
Defined.

(** C3. Anomaly safety: on a store that can be listed, a reservation with an
    empty owner is in no orphan group, is logged as an anomaly by the detect
    phase, stays in its pool and in every list committed for it, and is not
    reported, whatever the live set. *)
Theorem empty_owner_is_skipped live w i sp r :
  poolListable w = true →
  pools w !! i = Some sp → r ∈ reservations sp → PodRef r = "" →
  (∃ rl w1 evs, newLooperWith live w = (Some rl, None, w1)
      ∧ (∀ g, g ∈ orphanedIPs rl → r ∉ Allocations g)
      ∧ trace w1 = trace w ++ evs
      ∧ EvErrorf (PodRefMissing r) ∈ evs)
  ∧ (∃ sp', pools (after (runPass live w)) !! i = Some sp' ∧ r ∈ reservations sp')
  ∧ (r ∉ removed (runPass live w))
  ∧ (∃ evs, trace (after (runPass live w)) = trace w ++ evs
            ∧ ∀ l, l ∈ updatesOf i evs → r ∈ l).
Proof.
  intros Hl Hi Hr He. split.
  - rewrite newLooperWith_spec by done. do 3 eexists. repeat split.
    + cbn [orphanedIPs]. intros g (j & sp0 & _ & -> & _)%groupsFrom_elem.
      cbn [Allocations]. by intros [[Hne _] _]%list_elem_of_filter.
    + apply elem_of_concat. eexists. split.
      * apply list_elem_of_fmap. exists sp. split; [done|].
        by apply list_elem_of_lookup_2 in Hi.
      * apply list_elem_of_fmap. exists r. split; [done|].
        by apply list_elem_of_filter.
  - apply (kept_reservation_survives live w i sp r Hi Hr). by intros [Hne _].
Qed.

Lemma empty_owner_is_skipped_scenario_B :
  (∃ rl w1 evs, newLooperWith [] Examples.scenarioB = (Some rl, None, w1)
      ∧ (∀ g, g ∈ orphanedIPs rl → Examples.resAnon ∉ Allocations g)
      ∧ trace w1 = trace Examples.scenarioB ++ evs
      ∧ EvErrorf (PodRefMissing Examples.resAnon) ∈ evs)
  ∧ (∃ sp', pools (after (runPass [] Examples.scenarioB)) !! 0 = Some sp'
            ∧ Examples.resAnon ∈ reservations sp')
  ∧ (Examples.resAnon ∉ removed (runPass [] Examples.scenarioB))
  ∧ (∃ evs, trace (after (runPass [] Examples.scenarioB))
            = trace Examples.scenarioB ++ evs
            ∧ ∀ l, l ∈ updatesOf 0 evs → Examples.resAnon ∈ l).
Proof.
  apply (empty_owner_is_skipped [] Examples.scenarioB 0
           (mkStoredPool 1 [Examples.resAnon])).
  - reflexivity.
  - reflexivity.
  - apply list_elem_of_here.
  - reflexivity.
Defined.

(** C4, as amended. Single commit per pool: a pool without orphaned
    reservations is not written; a pool with [N > 0] orphaned reservations
    (each counted, also when several have the same owner) is written exactly
    once, with a list of length [len(original) - N]. *)
Theorem single_commit_per_pool live w i sp :
  poolListable w = true → pools w !! i = Some sp →
  ∃ evs, trace (after (runPass live w)) = trace w ++ evs
    ∧ (length (orphansOf live (reservations sp)) = 0 → updatesOf i evs = [])
    ∧ (0 < length (orphansOf live (reservations sp)) →
       ∃ l, updatesOf i evs = [l]
            ∧ length l = length (reservations sp)
                         - length (orphansOf live (reservations sp))).
Proof.
  intros Hl Hi. rewrite runPass_spec by done. unfold after; cbn [snd trace].
  eexists. split; [done|].
  rewrite updatesOf_app, updatesOf_anomalies, app_nil_l.
  rewrite updatesOf_reclaimEvents, decide_True by lia.
  rewrite Nat.sub_0_r, Hi. split.
  - by intros ->%nil_length_inv.
  - intros Hpos. exists (keptOf live (reservations sp)).
    rewrite length_keptOf. split; [|done].
    by destruct (orphansOf live (reservations sp)); [simpl in Hpos; lia|].
Qed.

Lemma single_commit_per_pool_scenario_C :
  ∃ evs, trace (after (runPass ["podA"; "podC"; "podD"] Examples.scenarioC))
         = trace Examples.scenarioC ++ evs
    ∧ (length (orphansOf ["podA"; "podC"; "podD"] [Examples.resD; Examples.resB]) = 0 →
       updatesOf 1 evs = [])
    ∧ (0 < length (orphansOf ["podA"; "podC"; "podD"] [Examples.resD; Examples.resB]) →
       ∃ l, updatesOf 1 evs = [l]
            ∧ length l = length [Examples.resD; Examples.resB]
                         - length (orphansOf ["podA"; "podC"; "podD"]
                                     [Examples.resD; Examples.resB])).
Proof.
  apply (single_commit_per_pool ["podA"; "podC"; "podD"] Examples.scenarioC 1
           (mkStoredPool 4 [Examples.resD; Examples.resB])).
  - reflexivity.
  - reflexivity.
Defined.

(** C4, as stated, fails: [podB] is the one orphaned owner of a pool of
    three reservations, two of them its own; the pool is written once, with
    a list of length 1, not [3 - 1]. *)
Lemma single_commit_counts_reservations_not_owners :
  pools Examples.twoOfOneOwner !! 0
    = Some (mkStoredPool 1 [Examples.resB; Examples.resA; Examples.resB'])
  ∧ length (remove_dups (PodRef <$> orphansOf ["podA"]
                           [Examples.resB; Examples.resA; Examples.resB'])) = 1
  ∧ updatesOf 0 (trace (after (runPass ["podA"] Examples.twoOfOneOwner)))
    = [[Examples.resA]]
  ∧ length [Examples.resA]
    ≠ length [Examples.resB; Examples.resA; Examples.resB'] - 1.
Proof. repeat split. simpl. lia. Qed.

(** C5. No-op idempotence: after a pass that returned without error, a
    second pass on the store it left, with the same live set, reports
    nothing, fails nowhere, writes no pool and leaves the store as it is. *)
Theorem second_pass_removes_nothing live w :
  failure (runPass live w) = None →
  removed (runPass live (after (runPass live w))) = []
  ∧ failure (runPass live (after (runPass live w))) = None
  ∧ pools (after (runPass live (after (runPass live w))))
    = pools (after (runPass live w))
  ∧ (∃ evs, trace (after (runPass live (after (runPass live w))))
            = trace (after (runPass live w)) ++ evs
            ∧ ∀ i, updatesOf i evs = []).
Proof.
  intros Hok. destruct (poolListable w) eqn:Hl.
  2: { by rewrite runPass_unlistable in Hok. }
  rewrite (runPass_spec live w Hl). unfold removed, failure, after; cbn [fst snd].
  rewrite runPass_spec by done. cbn [fst snd pools trace].
  assert (Hclean : Forall (λ sp, orphansOf live (reservations sp) = [])
                     (reclaimed live <$> pools w)).
  { apply Forall_fmap, Forall_forall. intros sp _. apply reclaimed_clean. }
  repeat split.
  - induction Hclean as [|sp pls Hsp _ IH]; [done|].
    rewrite fmap_cons. cbn [concat]. by rewrite (reportOf_clean live _ Hsp), IH.
  - induction Hclean as [|sp pls Hsp _ IH]; [done|].
    rewrite fmap_cons. f_equal; [|done]. unfold reclaimed. by rewrite Hsp.
  - eexists. split; [done|]. intros i.
    rewrite updatesOf_app, updatesOf_anomalies.
    by rewrite (reclaimEvents_clean live 0 _ Hclean).
Qed.

Lemma second_pass_removes_nothing_scenario_A :
  removed (runPass ["podA"; "podC"] (after (runPass ["podA"; "podC"] Examples.scenarioA)))
    = []
  ∧ failure (runPass ["podA"; "podC"] (after (runPass ["podA"; "podC"] Examples.scenarioA)))
    = None
  ∧ pools (after (runPass ["podA"; "podC"]
                    (after (runPass ["podA"; "podC"] Examples.scenarioA))))
    = pools (after (runPass ["podA"; "podC"] Examples.scenarioA))
  ∧ (∃ evs, trace (after (runPass ["podA"; "podC"]
                            (after (runPass ["podA"; "podC"] Examples.scenarioA))))
            = trace (after (runPass ["podA"; "podC"] Examples.scenarioA)) ++ evs
            ∧ ∀ i, updatesOf i evs = []).
Proof.
  apply (second_pass_removes_nothing ["podA"; "podC"] Examples.scenarioA).
  reflexivity.
Defined.

(** C6. A failing [Pool.update] aborts the pass: when the pools before [g]
    were processed without error and the update of [g]'s pool fails, the
    pass returns that error (wrapped) with no removal list, the store is as
    the earlier pools left it (their commits stand), and the failed update
    and its log entry are the last events: no later pool is touched. *)
Theorem update_failure_aborts_pass live pre g post w tot w1 cur w2 err w3 :
  reconcile_loop pre [] w = (tot, None, w1) →
  deallocate_loop (findOutPodRefsToDeallocateIPsFrom g)
                  (storage.Allocations (Pool g)) w1 = (cur, None, w2) →
  storage.Update (Pool g) cur w2 = (Some err, w3) →
  failure (ReconcileIPPools (mkLooper live (pre ++ g :: post)) w)
    = Some (FailedToUpdate err)
  ∧ removed (ReconcileIPPools (mkLooper live (pre ++ g :: post)) w) = []
  ∧ pools (after (ReconcileIPPools (mkLooper live (pre ++ g :: post)) w))
    = pools w1
  ∧ trace (after (ReconcileIPPools (mkLooper live (pre ++ g :: post)) w))
    = trace w2 ++ [EvUpdate (index (Pool g)) cur; EvErrorf (FailedToUpdate err)].
Proof.
  intros Hpre Hde Hup. unfold ReconcileIPPools; cbn [orphanedIPs].
  rewrite reconcile_loop_app, Hpre. cbn [reconcile_loop]. rewrite Hde, Hup.
  unfold failure, removed, after, logging.Errorf; cbn [fst snd record pools trace].
  destruct (Update_failure_pools _ _ _ _ _ Hup) as [Hp Ht].
  destruct (deallocate_loop_trace (findOutPodRefsToDeallocateIPsFrom g)
              (storage.Allocations (Pool g)) w1) as (n & _ & Hp2).
  rewrite Hde in Hp2; cbn [snd] in Hp2.
  repeat split; [congruence|]. by rewrite Ht, <- app_assoc.
Qed.

Lemma update_failure_aborts_pass_after_race :
  failure (ReconcileIPPools (mkLooper [] ([Examples.groupB] ++ Examples.groupD :: []))
             Examples.afterRace)
    = Some (FailedToUpdate CommitConflict)
  ∧ removed (ReconcileIPPools (mkLooper [] ([Examples.groupB] ++ Examples.groupD :: []))
               Examples.afterRace) = []
  ∧ pools (after (ReconcileIPPools
                    (mkLooper [] ([Examples.groupB] ++ Examples.groupD :: []))
                    Examples.afterRace))
    = [mkStoredPool 2 []; mkStoredPool 2 [Examples.resD; Examples.resE]]
  ∧ trace (after (ReconcileIPPools
                    (mkLooper [] ([Examples.groupB] ++ Examples.groupD :: []))
                    Examples.afterRace))
    = [EvDeallocate "podB"; EvUpdate 0 []; EvDeallocate "podD"]
        ++ [EvUpdate 1 []; EvErrorf (FailedToUpdate CommitConflict)].
Proof.
  apply (update_failure_aborts_pass [] [Examples.groupB] Examples.groupD []
           Examples.afterRace [Examples.resB]
           (mkWorld None (Some []) true
              [mkStoredPool 2 []; mkStoredPool 2 [Examples.resD; Examples.resE]]
              [EvDeallocate "podB"; EvUpdate 0 []])
           []
           (mkWorld None (Some []) true
              [mkStoredPool 2 []; mkStoredPool 2 [Examples.resD; Examples.resE]]
              [EvDeallocate "podB"; EvUpdate 0 []; EvDeallocate "podD"])
           CommitConflict
           (mkWorld None (Some []) true
              [mkStoredPool 2 []; mkStoredPool 2 [Examples.resD; Examples.resE]]
              [EvDeallocate "podB"; EvUpdate 0 []; EvDeallocate "podD"; EvUpdate 1 []])).
  - vm_compute. reflexivity.
  - vm_compute. reflexivity.
  - vm_compute. reflexivity.
Defined.

(** C7. A not-found from the deallocation primitive aborts the pass before
    the pool is written: when the pools before [g] were processed without
    error and the primitive fails on one of [g]'s targets, the error is
    not-found for that target, the pass returns it with no removal list,
    only invocations of the primitive were added since the earlier pools
    (no [Pool.update] for [g]), and the stored pool of [g] is as it was
    before the pass if no earlier group was about the same pool. *)
Theorem not_found_aborts_before_update live pre g post w tot w1 cur err w2 :
  reconcile_loop pre [] w = (tot, None, w1) →
  deallocate_loop (findOutPodRefsToDeallocateIPsFrom g)
                  (storage.Allocations (Pool g)) w1 = (cur, Some err, w2) →
  (∃ p, p ∈ findOutPodRefsToDeallocateIPsFrom g ∧ err = NotFound p)
  ∧ failure (ReconcileIPPools (mkLooper live (pre ++ g :: post)) w) = Some err
  ∧ removed (ReconcileIPPools (mkLooper live (pre ++ g :: post)) w) = []
  ∧ pools (after (ReconcileIPPools (mkLooper live (pre ++ g :: post)) w))
    = pools w1
  ∧ (∃ ts, trace (after (ReconcileIPPools (mkLooper live (pre ++ g :: post)) w))
           = trace w1 ++ (EvDeallocate <$> ts))
  ∧ (Forall (λ g', index (Pool g') ≠ index (Pool g)) pre →
     pools (after (ReconcileIPPools (mkLooper live (pre ++ g :: post)) w))
       !! index (Pool g)
     = pools w !! index (Pool g)).
Proof.
  intros Hpre Hde. unfold ReconcileIPPools; cbn [orphanedIPs].
  rewrite reconcile_loop_app, Hpre. cbn [reconcile_loop]. rewrite Hde.
  unfold failure, removed, after; cbn [fst snd].
  destruct (deallocate_loop_trace (findOutPodRefsToDeallocateIPsFrom g)
              (storage.Allocations (Pool g)) w1) as (n & Ht & Hp).
  rewrite Hde in Ht, Hp; cbn [snd] in Ht, Hp.
  repeat split; try done.
  - by apply deallocate_loop_error in Hde.
  - by eexists.
  - intros Hdistinct. rewrite Hp.
    pose proof (reconcile_loop_frame pre [] w _ Hdistinct) as Hf.
    unfold after in Hf. by rewrite Hpre in Hf.
Qed.

Lemma not_found_aborts_before_update_stale_group :
  (∃ p, p ∈ findOutPodRefsToDeallocateIPsFrom Examples.groupStale
        ∧ NotFound "podE" = NotFound p)
  ∧ failure (ReconcileIPPools
               (mkLooper [] ([Examples.groupB] ++ Examples.groupStale :: []))
               Examples.beforeRace) = Some (NotFound "podE")
  ∧ removed (ReconcileIPPools
               (mkLooper [] ([Examples.groupB] ++ Examples.groupStale :: []))
               Examples.beforeRace) = []
  ∧ pools (after (ReconcileIPPools
                    (mkLooper [] ([Examples.groupB] ++ Examples.groupStale :: []))
                    Examples.beforeRace))
    = [mkStoredPool 2 []; mkStoredPool 1 [Examples.resD]]
  ∧ (∃ ts, trace (after (ReconcileIPPools
                           (mkLooper [] ([Examples.groupB] ++ Examples.groupStale :: []))
                           Examples.beforeRace))
           = [EvDeallocate "podB"; EvUpdate 0 []] ++ (EvDeallocate <$> ts))
  ∧ (Forall (λ g', index (Pool g') ≠ index (Pool Examples.groupStale))
            [Examples.groupB] →
     pools (after (ReconcileIPPools
                     (mkLooper [] ([Examples.groupB] ++ Examples.groupStale :: []))
                     Examples.beforeRace))
       !! index (Pool Examples.groupStale)
     = pools Examples.beforeRace !! index (Pool Examples.groupStale)).
Proof.
  apply (not_found_aborts_before_update [] [Examples.groupB] Examples.groupStale []
           Examples.beforeRace [Examples.resB]
           (mkWorld None (Some []) true
              [mkStoredPool 2 []; mkStoredPool 1 [Examples.resD]]
              [EvDeallocate "podB"; EvUpdate 0 []])
           [Examples.resD] (NotFound "podE")
           (mkWorld None (Some []) true
              [mkStoredPool 2 []; mkStoredPool 1 [Examples.resD]]
              [EvDeallocate "podB"; EvUpdate 0 []; EvDeallocate "podE"])).
  - vm_compute. reflexivity.
  - vm_compute. reflexivity.
Defined.

(** C8. The match function returns the index of the first reservation whose
    owner is the given identity, and -1 when no reservation has that owner. *)
Theorem matchByPodRef_first_owner (reservations : list IPReservation) (podRef : string) :
  (∃ i v, matchByPodRef reservations podRef = Z.of_nat i
          ∧ reservations !! i = Some v
          ∧ PodRef v = podRef
          ∧ Forall (λ v', PodRef v' ≠ podRef) (take i reservations))
  ∨ (matchByPodRef reservations podRef = (-1)%Z
     ∧ Forall (λ v, PodRef v ≠ podRef) reservations).
Proof.
  unfold matchByPodRef. rewrite matchByPodRef_from_firstIndex.
  destruct (firstIndex podRef reservations) as [i|] eqn:Hf.
  - left. destruct (firstIndex_Some _ _ _ Hf) as (v & Hv & Hp & Hall).
    exists i, v. by rewrite Z.add_0_l.
  - right. split; [done | by apply firstIndex_None].
Qed.

(** C9. Whenever [ReconcileIPPools] returns an error, the removal list it
    returns is nil, whatever earlier pools of the pass committed. *)
Theorem error_returns_nil_list (rl : ReconcileLooper) w :
  failure (ReconcileIPPools rl w) ≠ None →
  removed (ReconcileIPPools rl w) = [].
Proof.
  intros Herr. destruct (failure (ReconcileIPPools rl w)) as [e|] eqn:He; [|done].
  by apply (reconcile_loop_error_nil _ _ _ e).
Qed.

Lemma error_returns_nil_list_after_race :
  removed (ReconcileIPPools (mkLooper [] [Examples.groupB; Examples.groupD])
             Examples.afterRace) = []
  ∧ pools Examples.afterRace !! 0 = Some (mkStoredPool 1 [Examples.resB])
  ∧ pools (after (ReconcileIPPools (mkLooper [] [Examples.groupB; Examples.groupD])
                    Examples.afterRace)) !! 0
    = Some (mkStoredPool 2 []).
Proof.
  split; [|split; reflexivity].
  apply (error_returns_nil_list (mkLooper [] [Examples.groupB; Examples.groupD])
           Examples.afterRace).
  vm_compute. discriminate.
Defined.





End Claims.

(** * Further properties of iploop.go *)

Section Inventory.

Implicit Types (live : list string) (l : list IPReservation) (w : World).

(** X1. [isPodAlive] answers true exactly for the references of the live
    list, compared as whole strings. *)
Theorem isPodAlive_exact_membership (rl : ReconcileLooper) (podRef : string) :
  isPodAlive rl podRef = true ↔ podRef ∈ livePodRefs rl.
Proof.
  destruct rl as [live orph]. unfold isPodAlive; cbn [livePodRefs].
  induction live as [|livePodRef live IH]; cbn [isPodAlive_loop].
  - rewrite elem_of_nil. split; [discriminate | tauto].
  - rewrite elem_of_cons, <- IH.
    destruct (String.eqb_spec podRef livePodRef) as [Heq|Hne]; [tauto|].
    split; [by right | by intros [?|?]].
Qed.




End Inventory.

Section Detection.

Implicit Types (live : list string) (l : list IPReservation) (w : World).

Lemma findOrphanedIPsPerPool_listable live orph w :
  poolListable w = true →
  findOrphanedIPsPerPool (mkLooper live orph) w
  = (mkLooper live (orph ++ groupsFrom live 0 (pools w)), None,
     extend (anomalyEvents (pools w)) w).
Proof.
  intros Hl. unfold findOrphanedIPsPerPool, kubernetes.ListIPPools.
  by rewrite Hl, (imap_handlesFrom 0), scanPools_spec.
Qed.

Lemma findOrphanedIPsPerPool_unlistable live orph w :
  poolListable w = false →
  findOrphanedIPsPerPool (mkLooper live orph) w
  = (mkLooper live orph, Some (FailedToRetrievePools PoolListUnavailable),
     extend [EvErrorf (FailedToRetrievePools PoolListUnavailable)] w).
Proof.
  intros Hl. unfold findOrphanedIPsPerPool, kubernetes.ListIPPools.
  by rewrite Hl.
Qed.

Lemma newLooperWith_Some live w rl w1 :
  newLooperWith live w = (Some rl, None, w1) →
  poolListable w = true ∧ rl = mkLooper live (groupsFrom live 0 (pools w))
  ∧ w1 = extend (anomalyEvents (pools w)) w.
Proof.
  intros Hnew. destruct (poolListable w) eqn:Hl.
  - rewrite newLooperWith_spec in Hnew by done. by simplify_eq.
  - by rewrite newLooperWith_unlistable in Hnew.
Qed.

Lemma groupsFrom_complete live k pls j sp :
  pls !! j = Some sp → orphansOf live (reservations sp) ≠ [] →
  mkOrphaned (mkIPPool (k + j) (version sp) (reservations sp))
             (orphansOf live (reservations sp))
  ∈ groupsFrom live k pls.
Proof.
  revert k j; induction pls as [|sp0 pls IH]; intros k j; [done|].
  destruct j as [|j]; cbn [groupsFrom].
  - intros [= ->] Hne. rewrite Nat.add_0_r.
    destruct (orphansOf live (reservations sp)) eqn:Ho; [done|].
    apply list_elem_of_here.
  - intros Hj Hne. replace (k + S j) with (S k + j) by lia.
    pose proof (IH (S k) j Hj Hne) as Hin.
    destruct (orphansOf live (reservations sp0)); [done|].
    by apply list_elem_of_further.
Qed.

Lemma groupsFrom_indexes live k pls :
  ((λ g, index (Pool g)) <$> groupsFrom live k pls) `sublist_of` seq k (length pls).
Proof.
  revert k; induction pls as [|sp pls IH]; intros k; [done|].
  cbn [groupsFrom length seq].
  destruct (orphansOf live (reservations sp)).
  - by apply sublist_cons.
  - rewrite fmap_cons. by apply sublist_skip.
Qed.

Lemma anomalyEvents_log pls : Forall isLogEntry (anomalyEvents pls).
Proof.
  unfold anomalyEvents. induction pls as [|sp pls IH]; [done|].
  rewrite fmap_cons. cbn [concat]. apply Forall_app. split; [|done].
  by apply Forall_fmap, Forall_true.
Qed.

(** X3. Every group the detect phase retains is about a pool as it is
    stored, is not empty, and holds exactly the reservations of that pool
    whose owner is non-empty and not alive, in the order of the pool. *)
Theorem detected_group_is_the_orphans_of_its_pool live w rl w1 g :
  newLooperWith live w = (Some rl, None, w1) →
  g ∈ orphanedIPs rl →
  pools w !! index (Pool g)
    = Some (mkStoredPool (readVersion (Pool g)) (storage.Allocations (Pool g)))
  ∧ Allocations g = filter (orphaned live) (storage.Allocations (Pool g))
  ∧ Allocations g ≠ []
  ∧ Allocations g `sublist_of` storage.Allocations (Pool g).
Proof.
  intros (_ & -> & _)%newLooperWith_Some. cbn [orphanedIPs].
  intros (j & sp & Hj & -> & Hne)%groupsFrom_elem.
  cbn [Pool Allocations index readVersion storage.Allocations snapshot].
  repeat split; [|done|apply sublist_filter]. by destruct sp.
Qed.

Lemma detected_group_is_the_orphans_of_its_pool_scenario_C :
  pools Examples.scenarioC !! 1
    = Some (mkStoredPool 4 [Examples.resD; Examples.resB])
  ∧ [Examples.resB]
    = filter (orphaned ["podA"; "podC"; "podD"]) [Examples.resD; Examples.resB]
  ∧ [Examples.resB] ≠ []
  ∧ [Examples.resB] `sublist_of` [Examples.resD; Examples.resB].
Proof.
  apply (detected_group_is_the_orphans_of_its_pool ["podA"; "podC"; "podD"]
           Examples.scenarioC
           (mkLooper ["podA"; "podC"; "podD"]
              [mkOrphaned (mkIPPool 1 4 [Examples.resD; Examples.resB]) [Examples.resB]])
           Examples.scenarioC
           (mkOrphaned (mkIPPool 1 4 [Examples.resD; Examples.resB]) [Examples.resB])).
  - vm_compute. reflexivity.
  - apply list_elem_of_here.
Defined.

(** X4. The detect phase retains one group per pool that has an orphan and
    none for the others, in the order in which the pools are listed. *)
Theorem detect_one_group_per_orphaned_pool live w rl w1 :
  newLooperWith live w = (Some rl, None, w1) →
  ((λ g, index (Pool g)) <$> orphanedIPs rl) `sublist_of` seq 0 (length (pools w))
  ∧ NoDup ((λ g, index (Pool g)) <$> orphanedIPs rl)
  ∧ ∀ i sp, pools w !! i = Some sp →
      (filter (orphaned live) (reservations sp) ≠ []
       ↔ i ∈ (λ g, index (Pool g)) <$> orphanedIPs rl).
Proof.
  intros (_ & -> & _)%newLooperWith_Some. cbn [orphanedIPs].
  pose proof (groupsFrom_indexes live 0 (pools w)) as Hsub.
  repeat split; [done| |..].
  - eapply sublist_NoDup; [apply NoDup_seq | exact Hsub].
  - intros Hne. apply list_elem_of_fmap. eexists. split; [|by apply (groupsFrom_complete live 0)].
    done.
  - intros (g & Hi & (j & sp' & Hj & -> & Hne)%groupsFrom_elem)%list_elem_of_fmap.
    cbn [Pool index] in Hi. rewrite Nat.add_0_l in Hi. subst j.
    by simplify_eq.
Qed.

Lemma detect_one_group_per_orphaned_pool_scenario_C :
  [1] `sublist_of` seq 0 2
  ∧ NoDup [1]
  ∧ ∀ i sp, pools Examples.scenarioC !! i = Some sp →
      (filter (orphaned ["podA"; "podC"; "podD"]) (reservations sp) ≠ []
       ↔ i ∈ [1]).
Proof.
  apply (detect_one_group_per_orphaned_pool ["podA"; "podC"; "podD"]
           Examples.scenarioC
           (mkLooper ["podA"; "podC"; "podD"]
              [mkOrphaned (mkIPPool 1 4 [Examples.resD; Examples.resB]) [Examples.resB]])
           Examples.scenarioC).
  vm_compute. reflexivity.
Defined.

(** X5. [findOrphanedIPsPerPool] writes nothing: whatever the looper and the
    store, it keeps the live list, only appends groups to those the looper
    has, leaves every other part of the world as it is and adds only log
    entries; when listing the pools fails it appends no group. *)
Theorem findOrphanedIPsPerPool_only_appends_and_logs (rl : ReconcileLooper) w :
  ∃ new evs,
    (findOrphanedIPsPerPool rl w).1.1
      = mkLooper (livePodRefs rl) (orphanedIPs rl ++ new)
    ∧ (findOrphanedIPsPerPool rl w).2 = extend evs w
    ∧ Forall isLogEntry evs
    ∧ ((findOrphanedIPsPerPool rl w).1.2 = None ∨ new = []).
Proof.
  destruct rl as [live orph]. destruct (poolListable w) eqn:Hl.
  - rewrite findOrphanedIPsPerPool_listable by done.
    exists (groupsFrom live 0 (pools w)), (anomalyEvents (pools w)).
    repeat split; [apply anomalyEvents_log | by left].
  - rewrite findOrphanedIPsPerPool_unlistable by done.
    exists [], [EvErrorf (FailedToRetrievePools PoolListUnavailable)].
    cbn [fst snd livePodRefs orphanedIPs]. rewrite app_nil_r.
    repeat split; [by repeat constructor | by right].
Qed.

End Detection.

Section Difference.

Implicit Types (live : list string) (l old new : list IPReservation) (w : World).

(** X6. [computeCleanedUpIPs] returns, in the order of the old list, the
    old reservations whose address is the address of no new reservation;
    the owners play no part. *)
Theorem computeCleanedUpIPs_by_address old new :
  computeCleanedUpIPs old new `sublist_of` old
  ∧ ∀ r, r ∈ computeCleanedUpIPs old new
         ↔ r ∈ old ∧ ¬ ∃ r', r' ∈ new ∧ IP r' = IP r.
Proof.
  rewrite computeCleanedUpIPs_spec. split; [apply sublist_filter|].
  intros r. rewrite list_elem_of_filter, list_elem_of_fmap. split.
  - intros [Hn Hr]. split; [done|]. intros (r' & Hr' & Heq). apply Hn. by exists r'.
  - intros [Hr Hn]. split; [|done]. intros (r' & Heq & Hr'). apply Hn. by exists r'.
Qed.

(** X7. [computeCleanedUpIPs] reports nothing exactly when every old address
    is still present; in particular a list compared with itself gives
    nothing, and compared with the empty list it is returned whole. *)
Theorem computeCleanedUpIPs_nothing_and_all old new :
  (computeCleanedUpIPs old new = [] ↔ ∀ r, r ∈ old → IP r ∈ IP <$> new)
  ∧ computeCleanedUpIPs old old = []
  ∧ computeCleanedUpIPs old [] = old
  ∧ computeCleanedUpIPs [] new = [].
Proof.
  rewrite !computeCleanedUpIPs_spec. repeat split.
  - intros Hnil r Hr. destruct (decide (IP r ∈ IP <$> new)) as [|Hn]; [done|].
    by destruct (filter_nil_not_elem_of _ _ r Hnil Hn).
  - intros Hall. apply filter_none. intros r Hr Hn. by apply Hn, Hall.
  - apply filter_none. intros r Hr Hn. by apply Hn, list_elem_of_fmap_2.
  - induction old as [|r old IH]; [done|].
    rewrite filter_cons_True by (by intros ?%elem_of_nil). by rewrite IH.
Qed.

Lemma filter_fresh_delete {B} `{EqDecision B} (f : IPReservation → B) l i r :
  NoDup (f <$> l) → l !! i = Some r →
  filter (λ x, f x ∉ f <$> delete i l) l = [r].
Proof.
  revert i; induction l as [|x l IH]; intros i; [done|].
  rewrite fmap_cons. intros [Hx Hnd]%NoDup_cons. destruct i as [|i]; simpl.
  - intros [= ->]. rewrite filter_cons_True by done. f_equal.
    apply filter_none. intros y Hy Hn. by apply Hn, list_elem_of_fmap_2.
  - intros Hi. rewrite filter_cons_False by (intros Hn; apply Hn, list_elem_of_here).
    rewrite <- (IH i Hnd Hi). apply filter_ext_elem. intros y Hy.
    rewrite not_elem_of_cons. split; [tauto|]. intros Hn. split; [|done].
    intros Heq. apply Hx. rewrite <- Heq. by apply list_elem_of_fmap_2.
Qed.

(** X8. What the deallocation primitive removes is what the difference
    finds: in a list with unique addresses, after a successful removal of
    the reservation of [podRef], [computeCleanedUpIPs] of the list before
    and after is that one reservation, and its owner is [podRef]. *)
Theorem computeCleanedUpIPs_after_deallocation l (podRef : string) l' r :
  NoDup (IP <$> l) →
  allocate.IterateForDeallocation l podRef matchByPodRef = (l', Some r, None) →
  computeCleanedUpIPs l l' = [r] ∧ PodRef r = podRef ∧ r ∈ l
  ∧ length l = S (length l').
Proof.
  intros Hnd. rewrite IterateForDeallocation_matchByPodRef.
  destruct (firstIndex podRef l) as [i|] eqn:Hf; [|done].
  intros [= <- Hr]. destruct (firstIndex_Some _ _ _ Hf) as (r0 & Hi & Hp & _).
  assert (r0 = r) as -> by congruence.
  rewrite computeCleanedUpIPs_spec. repeat split; [|done|..].
  - by apply filter_fresh_delete.
  - by apply list_elem_of_lookup_2 in Hi.
  - apply lookup_lt_Some in Hi. rewrite length_delete by eauto. lia.
Qed.

Lemma computeCleanedUpIPs_after_deallocation_scenario_A :
  computeCleanedUpIPs [Examples.resA; Examples.resB; Examples.resC]
                      [Examples.resA; Examples.resC] = [Examples.resB]
  ∧ PodRef Examples.resB = "podB"
  ∧ Examples.resB ∈ [Examples.resA; Examples.resB; Examples.resC]
  ∧ length [Examples.resA; Examples.resB; Examples.resC]
    = S (length [Examples.resA; Examples.resC]).
Proof.
  apply (computeCleanedUpIPs_after_deallocation
           [Examples.resA; Examples.resB; Examples.resC] "podB").
  - apply (bool_decide_unpack _). vm_compute. exact I.
  - vm_compute. reflexivity.
Defined.

Lemma deallocate_loop_success (ts : list string) l w cur w' :
  deallocate_loop ts l w = (cur, None, w') →
  cur `sublist_of` l ∧ length l = length ts + length cur.
Proof.
  revert l w; induction ts as [|p ts IH]; intros l w; cbn [deallocate_loop].
  - intros [= -> _]. done.
  - rewrite IterateForDeallocation_matchByPodRef.
    destruct (firstIndex p l) as [i|] eqn:Hf; [|done].
    destruct (firstIndex_Some _ _ _ Hf) as (r & Hi & _).
    intros (Hsub & Hlen)%IH. split.
    + etrans; [exact Hsub | apply sublist_delete].
    + rewrite length_delete in Hlen by eauto.
      apply lookup_lt_Some in Hi. simpl. lia.
Qed.

(** X9. The inner loop of [ReconcileIPPools] removes one reservation per
    target and only reservations of the targets: when it ends without
    error, what is left is a sublist of what it started from, and the owners
    it started from are the targets together with the owners left. *)
Theorem deallocate_loop_removes_the_targets (ts : list string) l w cur w' :
  deallocate_loop ts l w = (cur, None, w') →
  cur `sublist_of` l
  ∧ PodRef <$> l ≡ₚ ts ++ (PodRef <$> cur)
  ∧ length l = length ts + length cur.
Proof.
  revert l w; induction ts as [|p ts IH]; intros l w; cbn [deallocate_loop].
  - intros [= -> _]. done.
  - rewrite IterateForDeallocation_matchByPodRef.
    destruct (firstIndex p l) as [i|] eqn:Hf; [|done].
    destruct (firstIndex_Some _ _ _ Hf) as (r & Hi & Hp & _).
    intros (Hsub & Hperm & Hlen)%IH.
    assert (Hl : l ≡ₚ r :: delete i l) by by apply delete_Permutation.
    repeat split.
    + etrans; [exact Hsub | apply sublist_delete].
    + rewrite Hl, fmap_cons, Hp, Hperm. done.
    + rewrite Hl at 1. simpl. by rewrite Hlen.
Qed.

Lemma deallocate_loop_removes_the_targets_two_of_one_owner :
  [Examples.resA] `sublist_of` [Examples.resB; Examples.resA; Examples.resB']
  ∧ PodRef <$> [Examples.resB; Examples.resA; Examples.resB']
    ≡ₚ ["podB"; "podB"] ++ (PodRef <$> [Examples.resA])
  ∧ length [Examples.resB; Examples.resA; Examples.resB']
    = length ["podB"; "podB"] + length [Examples.resA].
Proof.
  apply (deallocate_loop_removes_the_targets ["podB"; "podB"]
           [Examples.resB; Examples.resA; Examples.resB'] Examples.twoOfOneOwner
           [Examples.resA]
           (extend [EvDeallocate "podB"; EvDeallocate "podB"] Examples.twoOfOneOwner)).
  vm_compute. reflexivity.
Defined.

End Difference.

Section AnyLooper.

Implicit Types (live : list string) (l : list IPReservation) (w : World).

Lemma updatedPools_app evs1 evs2 :
  updatedPools (evs1 ++ evs2) = updatedPools evs1 ++ updatedPools evs2.
Proof. induction evs1 as [|[e|p|j l] evs1 IH]; simpl; by rewrite ?IH. Qed.

Lemma updatedPools_deallocations (ts : list string) :
  updatedPools (EvDeallocate <$> ts) = [].
Proof. induction ts; [done | by simpl]. Qed.

Lemma Update_trace p new w :
  trace (storage.Update p new w).2 = trace w ++ [EvUpdate (index p) new].
Proof.
  unfold storage.Update; simpl. destruct (pools w !! index p) as [sp|]; [|done].
  by destruct (decide (version sp = readVersion p)).
Qed.

Lemma elem_of_deallocations (ev : Event) (ts : list string) :
  ev ∈ EvDeallocate <$> ts → ∃ p, ev = EvDeallocate p.
Proof. intros (p & -> & _)%list_elem_of_fmap. by exists p. Qed.

(** What a call of the reclaim loop adds to the trace and to its result. *)
Lemma reconcile_loop_events groups total w :
  ∃ evs,
    trace (after (reconcile_loop groups total w)) = trace w ++ evs
    ∧ (∀ i l', EvUpdate i l' ∈ evs →
         ∃ g, g ∈ groups ∧ index (Pool g) = i
              ∧ l' `sublist_of` storage.Allocations (Pool g)
              ∧ length (storage.Allocations (Pool g))
                = length (Allocations g) + length l')
    ∧ updatedPools evs `prefix_of` ((λ g, index (Pool g)) <$> groups)
    ∧ (failure (reconcile_loop groups total w) = None →
       updatedPools evs = (λ g, index (Pool g)) <$> groups)
    ∧ (∀ r, r ∈ removed (reconcile_loop groups total w) →
         r ∈ total ∨ ∃ g, g ∈ groups ∧ r ∈ storage.Allocations (Pool g)).
Proof.
  unfold after, failure, removed.
  revert total w; induction groups as [|g groups IH]; intros total w.
  { exists []. cbn. rewrite app_nil_r. repeat split; try done.
    - by intros i l' ?%elem_of_nil.
    - by left. }
  cbn [reconcile_loop].
  destruct (deallocate_loop_trace (findOutPodRefsToDeallocateIPsFrom g)
              (storage.Allocations (Pool g)) w) as (n & Ht & _).
  destruct (deallocate_loop _ _ w) as [[cur [e|]] w2] eqn:Hde; cbn [snd] in Ht.
  { eexists. cbn [fst snd]. split; [exact Ht|]. repeat split; try done.
    - by intros i l' (p & ?)%elem_of_deallocations.
    - rewrite updatedPools_deallocations. apply prefix_nil.
    - by intros r ?%elem_of_nil. }
  apply deallocate_loop_success in Hde as (Hsub & Hlen).
  unfold findOutPodRefsToDeallocateIPsFrom in Hlen.
  rewrite findOutPodRefs_loop_spec, app_nil_l, length_fmap in Hlen.
  pose proof (Update_trace (Pool g) cur w2) as Hu.
  assert (Hthis : ∀ i l', EvUpdate i l' = EvUpdate (index (Pool g)) cur →
            ∃ g0, g0 ∈ g :: groups ∧ index (Pool g0) = i
                  ∧ l' `sublist_of` storage.Allocations (Pool g0)
                  ∧ length (storage.Allocations (Pool g0))
                    = length (Allocations g0) + length l').
  { intros i l' [= -> ->]. exists g. split; [apply list_elem_of_here | done]. }
  destruct (storage.Update _ cur w2) as [[e|] w3]; cbn [snd] in Hu.
  { eexists. cbn [fst snd logging.Errorf record trace].
    split; [by rewrite Hu, Ht, <- !app_assoc|]. repeat split; try done.
    - intros i l' [(p & ?)%elem_of_deallocations|Hin]%elem_of_app; [done|].
      apply elem_of_cons in Hin as [Heq|Hin]; [by apply Hthis|].
      by apply list_elem_of_singleton in Hin.
    - rewrite updatedPools_app, updatedPools_deallocations. cbn.
      apply prefix_cons, prefix_nil.
    - by intros r ?%elem_of_nil. }
  destruct (IH (total ++ computeCleanedUpIPs (storage.Allocations (Pool g)) cur) w3)
    as (evs & Hevs & Hupd & Hpre & Hall & Hrem).
  eexists. split; [by rewrite Hevs, Hu, Ht, <- !app_assoc|]. repeat split.
  - intros i l' [(p & ?)%elem_of_deallocations|Hin]%elem_of_app; [done|].
    apply elem_of_cons in Hin as [Heq|Hin]; [by apply Hthis|].
    destruct (Hupd i l' Hin) as (g0 & Hg0 & Hrest).
    exists g0. split; [by apply list_elem_of_further | done].
  - rewrite updatedPools_app, updatedPools_deallocations. cbn.
    by apply prefix_cons.
  - intros Hok. rewrite updatedPools_app, updatedPools_deallocations. cbn.
    by rewrite Hall.
  - intros r [[Hr|Hr]%elem_of_app|(g0 & Hg0 & Hr)]%Hrem.
    + by left.
    + right. exists g. split; [apply list_elem_of_here|].
      rewrite computeCleanedUpIPs_spec in Hr. by apply list_elem_of_filter in Hr as [_ ?].
    + right. exists g0. split; [by apply list_elem_of_further | done].
Qed.

(** X10. [ReconcileIPPools] only removes: for any looper and any store,
    every list it passes to [Pool.update] is, for one of its groups, a
    sublist of that pool's allocations that is shorter by the number of the
    group's orphans, and every reservation it reports is an allocation of
    the pool of one of its groups. *)
Theorem ReconcileIPPools_only_removes (rl : ReconcileLooper) w :
  ∃ evs,
    trace (after (ReconcileIPPools rl w)) = trace w ++ evs
    ∧ (∀ i l', EvUpdate i l' ∈ evs →
         ∃ g, g ∈ orphanedIPs rl ∧ index (Pool g) = i
              ∧ l' `sublist_of` storage.Allocations (Pool g)
              ∧ length (storage.Allocations (Pool g))
                = length (Allocations g) + length l')
    ∧ (∀ r, r ∈ removed (ReconcileIPPools rl w) →
         ∃ g, g ∈ orphanedIPs rl ∧ r ∈ storage.Allocations (Pool g)).
Proof.
  unfold ReconcileIPPools.
  destruct (reconcile_loop_events (orphanedIPs rl) [] w)
    as (evs & Ht & Hupd & _ & _ & Hrem).
  exists evs. repeat split; [done..|].
  intros r [?%elem_of_nil|?]%Hrem; done.
Qed.

Lemma reconcile_loop_success_updates pre w tot w1 :
  reconcile_loop pre [] w = (tot, None, w1) →
  ∃ evs, trace w1 = trace w ++ evs
         ∧ updatedPools evs = (λ g, index (Pool g)) <$> pre.
Proof.
  intros Hpre.
  destruct (reconcile_loop_events pre [] w) as (evs & Ht & _ & _ & Hall & _).
  unfold after, failure in Ht, Hall. rewrite Hpre in Ht, Hall.
  exists evs. split; [done | by apply Hall].
Qed.

(** X11. [ReconcileIPPools] calls [Pool.update] for the pools of its groups
    in the order of the groups, once per group, and stops at the first
    failure: the pools written are a prefix of the pools of the groups and
    all of them when no error is returned; when [Pool.update] fails for a
    group after the earlier ones succeeded, the error is returned and the
    pools written are those up to and including that group, none after it;
    when the primitive fails for a group, the error is returned and the
    pools written are those before that group only. *)
Theorem ReconcileIPPools_updates_in_group_order (rl : ReconcileLooper) w :
  ∃ evs,
    trace (after (ReconcileIPPools rl w)) = trace w ++ evs
    ∧ updatedPools evs `prefix_of` ((λ g, index (Pool g)) <$> orphanedIPs rl)
    ∧ (failure (ReconcileIPPools rl w) ≠ None
       ∨ updatedPools evs = (λ g, index (Pool g)) <$> orphanedIPs rl)
    ∧ (∀ pre g post tot w1 cur w2 e w3,
         orphanedIPs rl = pre ++ g :: post →
         reconcile_loop pre [] w = (tot, None, w1) →
         deallocate_loop (findOutPodRefsToDeallocateIPsFrom g)
                         (storage.Allocations (Pool g)) w1 = (cur, None, w2) →
         storage.Update (Pool g) cur w2 = (Some e, w3) →
         failure (ReconcileIPPools rl w) = Some (FailedToUpdate e)
         ∧ updatedPools evs = ((λ g, index (Pool g)) <$> pre) ++ [index (Pool g)])
    ∧ (∀ pre g post tot w1 cur e w2,
         orphanedIPs rl = pre ++ g :: post →
         reconcile_loop pre [] w = (tot, None, w1) →
         deallocate_loop (findOutPodRefsToDeallocateIPsFrom g)
                         (storage.Allocations (Pool g)) w1 = (cur, Some e, w2) →
         failure (ReconcileIPPools rl w) = Some e
         ∧ updatedPools evs = (λ g, index (Pool g)) <$> pre).
Proof.
  unfold ReconcileIPPools.
  destruct (reconcile_loop_events (orphanedIPs rl) [] w)
    as (evs & Ht & _ & Hpre & Hall & _).
  exists evs. split; [done|]. split; [done|]. split.
  { destruct (failure (reconcile_loop (orphanedIPs rl) [] w)); [by left|].
    right. by apply Hall. }
  unfold after, failure in *. split.
  - intros pre g post tot w1 cur w2 e w3 Hgroups Hrun Hde Hup.
    rewrite Hgroups, reconcile_loop_app, Hrun in Ht |- *.
    cbn [reconcile_loop] in Ht |- *. rewrite Hde, Hup in Ht |- *.
    cbn [fst snd logging.Errorf record trace] in Ht |- *. split; [done|].
    destruct (reconcile_loop_success_updates pre w tot w1 Hrun) as (evs1 & Ht1 & Hu1).
    destruct (deallocate_loop_trace (findOutPodRefsToDeallocateIPsFrom g)
                (storage.Allocations (Pool g)) w1) as (n & Ht2 & _).
    rewrite Hde in Ht2; cbn [snd] in Ht2.
    pose proof (Update_trace (Pool g) cur w2) as Ht3.
    rewrite Hup in Ht3; cbn [snd] in Ht3.
    rewrite Ht3, Ht2, Ht1, <- !app_assoc in Ht. apply app_inv_head in Ht as <-.
    rewrite !updatedPools_app, updatedPools_deallocations, Hu1. done.
  - intros pre g post tot w1 cur e w2 Hgroups Hrun Hde.
    rewrite Hgroups, reconcile_loop_app, Hrun in Ht |- *.
    cbn [reconcile_loop] in Ht |- *. rewrite Hde in Ht |- *.
    cbn [fst snd] in Ht |- *. split; [done|].
    destruct (reconcile_loop_success_updates pre w tot w1 Hrun) as (evs1 & Ht1 & Hu1).
    destruct (deallocate_loop_trace (findOutPodRefsToDeallocateIPsFrom g)
                (storage.Allocations (Pool g)) w1) as (n & Ht2 & _).
    rewrite Hde in Ht2; cbn [snd] in Ht2.
    rewrite Ht2, Ht1, <- !app_assoc in Ht. apply app_inv_head in Ht as <-.
    rewrite !updatedPools_app, updatedPools_deallocations, Hu1.
    by rewrite app_nil_r.
Qed.

End AnyLooper.

Lemma ReconcileIPPools_updates_in_group_order_stops_after_race :
  ∃ evs,
    trace (after (ReconcileIPPools
                    (mkLooper [] [Examples.groupB; Examples.groupD; Examples.groupC])
                    Examples.afterRaceThree))
    = trace Examples.afterRaceThree ++ evs
    ∧ failure (ReconcileIPPools
                 (mkLooper [] [Examples.groupB; Examples.groupD; Examples.groupC])
                 Examples.afterRaceThree)
      = Some (FailedToUpdate CommitConflict)
    ∧ updatedPools evs = [0; 1].
Proof.
  destruct (ReconcileIPPools_updates_in_group_order
              (mkLooper [] [Examples.groupB; Examples.groupD; Examples.groupC])
              Examples.afterRaceThree)
    as (evs & Ht & _ & _ & Hupdate & _).
  exists evs. split; [exact Ht|].
  apply (Hupdate [Examples.groupB] Examples.groupD [Examples.groupC]
           [Examples.resB]
           (extend [EvDeallocate "podB"; EvUpdate 0 []]
              (setPools [mkStoredPool 2 []; mkStoredPool 2 [Examples.resD; Examples.resE];
                         mkStoredPool 1 [Examples.resC]]
                 Examples.afterRaceThree))
           []
           (extend [EvDeallocate "podB"; EvUpdate 0 []; EvDeallocate "podD"]
              (setPools [mkStoredPool 2 []; mkStoredPool 2 [Examples.resD; Examples.resE];
                         mkStoredPool 1 [Examples.resC]]
                 Examples.afterRaceThree))
           CommitConflict
           (extend [EvDeallocate "podB"; EvUpdate 0 []; EvDeallocate "podD"; EvUpdate 1 []]
              (setPools [mkStoredPool 2 []; mkStoredPool 2 [Examples.resD; Examples.resE];
                         mkStoredPool 1 [Examples.resC]]
                 Examples.afterRaceThree))).
  - reflexivity.
  - vm_compute. reflexivity.
  - vm_compute. reflexivity.
  - vm_compute. reflexivity.
Defined.

Section EntryPoints.

Implicit Types (live : list string) (l : list IPReservation) (w : World).

Lemma NewReconcileLooper_cases w :
  NewReconcileLooper w
  = match connect w with
    | Some c => (None, Some (FailedToInstantiate c),
                 extend [EvErrorf (FailedToInstantiate c)] w)
    | None =>
        match podList w with
        | None => (None, Some InventoryUnavailable, w)
        | Some pods =>
            newLooperWith ((λ pod, Namespace pod +:+ "/" +:+ Name pod) <$> pods) w
        end
    end.
Proof.
  unfold NewReconcileLooper, kubernetes.NewClient, getPodRefs, kubernetes.ListPods.
  destruct (connect w); [done|]. destruct (podList w); [|done].
  by rewrite getPodRefs_loop_spec.
Qed.

(** X12. [NewReconcileLooper] returns either a looper and no error or an
    error and no looper, and in both cases it has written to no pool: the
    world differs only by log entries. *)
Theorem NewReconcileLooper_looper_or_error w :
  ∃ evs,
    (NewReconcileLooper w).2 = extend evs w
    ∧ Forall isLogEntry evs
    ∧ ((∃ rl, (NewReconcileLooper w).1 = (Some rl, None))
       ∨ (∃ e, (NewReconcileLooper w).1 = (None, Some e))).
Proof.
  rewrite NewReconcileLooper_cases. destruct (connect w) as [c|].
  { eexists. repeat split; [by repeat constructor | right; by eexists]. }
  destruct (podList w) as [pods|].
  2: { exists []. rewrite extend_nil. repeat split; [done | right; by eexists]. }
  destruct (poolListable w) eqn:Hl.
  - rewrite newLooperWith_spec by done. eexists.
    repeat split; [apply anomalyEvents_log | left; by eexists].
  - rewrite newLooperWith_unlistable by done. eexists.
    repeat split; [by repeat constructor | right; by eexists].
Qed.

(** X13. When the client, the pod inventory or the pool listing is not
    available, the pass returns an error and an empty list, and no pool is
    touched: the stored pools are as before and only log entries were
    added. *)
Theorem reconcile_without_looper_touches_nothing w :
  connect w ≠ None ∨ podList w = None ∨ poolListable w = false →
  removed (reconcile w) = []
  ∧ failure (reconcile w) ≠ None
  ∧ pools (after (reconcile w)) = pools w
  ∧ ∃ evs, trace (after (reconcile w)) = trace w ++ evs ∧ Forall isLogEntry evs.
Proof.
  intros Hdown. unfold reconcile. rewrite NewReconcileLooper_cases.
  unfold removed, failure, after.
  destruct (connect w) as [c|].
  { cbn. repeat split; [done|]. eexists. split; [done | by repeat constructor]. }
  destruct (podList w) as [pods|].
  2: { cbn. repeat split; [done|]. exists []. by rewrite app_nil_r. }
  destruct Hdown as [?|[?|Hl]]; [done..|].
  rewrite newLooperWith_unlistable by done. cbn.
  repeat split; [done|]. eexists. split; [done | by repeat constructor].
Qed.

Lemma reconcile_without_looper_touches_nothing_no_inventory :
  removed (reconcile Examples.clusterNoInventory) = []
  ∧ failure (reconcile Examples.clusterNoInventory) ≠ None
  ∧ pools (after (reconcile Examples.clusterNoInventory))
    = pools Examples.clusterNoInventory
  ∧ ∃ evs, trace (after (reconcile Examples.clusterNoInventory))
           = trace Examples.clusterNoInventory ++ evs
           ∧ Forall isLogEntry evs.
Proof.
  apply (reconcile_without_looper_touches_nothing Examples.clusterNoInventory).
  right. left. reflexivity.
Defined.

(** X14. From the inventory to the store: a reservation whose owner is the
    [namespace/name] of a pod that [ListPods] returned stays in its pool
    and is not reported by [reconcile]. *)
Theorem reconcile_keeps_reservations_of_listed_pods w pods (pod : Pod) i sp r :
  connect w = None → podList w = Some pods → pod ∈ pods →
  pools w !! i = Some sp → r ∈ reservations sp →
  PodRef r = Namespace pod +:+ "/" +:+ Name pod →
  (∃ sp', pools (after (reconcile w)) !! i = Some sp' ∧ r ∈ reservations sp')
  ∧ (r ∉ removed (reconcile w)).
Proof.
  intros Hc Hpods Hpod Hi Hr Href. rewrite (reconcile_runPass w pods Hc Hpods).
  destruct (kept_reservation_survives
              ((λ pod, Namespace pod +:+ "/" +:+ Name pod) <$> pods) w i sp r Hi Hr)
    as (Hkept & Hrep & _); [|done].
  intros [_ Hdead]. apply Hdead. rewrite Href.
  by apply (list_elem_of_fmap_2 (λ pod, Namespace pod +:+ "/" +:+ Name pod)).
Qed.

Lemma reconcile_keeps_reservations_of_listed_pods_cluster :
  (∃ sp', pools (after (reconcile Examples.cluster)) !! 0 = Some sp'
          ∧ Examples.resWeb ∈ reservations sp')
  ∧ (Examples.resWeb ∉ removed (reconcile Examples.cluster)).
Proof.
  apply (reconcile_keeps_reservations_of_listed_pods Examples.cluster
           [mkPod "default" "web"; mkPod "default" "db"] (mkPod "default" "web") 0
           (mkStoredPool 3 [Examples.resWeb; Examples.resGone; Examples.resAnon])).
  - reflexivity.
  - reflexivity.
  - apply list_elem_of_here.
  - reflexivity.
  - apply list_elem_of_here.
  - reflexivity.
Defined.

Lemma concat_split_Permutation {A B} (f g h : A → list B) (xs : list A) :
  (∀ x, f x ++ g x ≡ₚ h x) →
  concat (f <$> xs) ++ concat (g <$> xs) ≡ₚ concat (h <$> xs).
Proof.
  intros Hx. induction xs as [|x xs IH]; [done|].
  rewrite !fmap_cons. cbn [concat]. rewrite <- (Hx x), <- IH.
  rewrite <- !app_assoc. f_equiv. rewrite !app_assoc. f_equiv.
  apply Permutation_app_comm.
Qed.

(** X15. Nothing is lost and nothing is invented: on a store whose pools
    have unique addresses, the reservations a pass reports together with
    those it leaves in the store are, up to order, the reservations that
    were stored, and the number of pools is unchanged. *)
Theorem pass_conserves_reservations live w :
  poolListable w = true →
  Forall (λ sp, NoDup (IP <$> reservations sp)) (pools w) →
  removed (runPass live w) ++ concat (reservations <$> pools (after (runPass live w)))
    ≡ₚ concat (reservations <$> pools w)
  ∧ length (pools (after (runPass live w))) = length (pools w).
Proof.
  intros Hl Hnd. rewrite runPass_spec by done.
  unfold removed, after; cbn [fst snd pools]. split; [|by rewrite length_fmap].
  rewrite <- list_fmap_compose.
  assert (Hrep : (λ sp, reportOf live (reservations sp)) <$> pools w
                 = (λ sp, orphansOf live (reservations sp)) <$> pools w).
  { induction Hnd as [|sp pls Hsp _ IH]; [done|].
    rewrite !fmap_cons. f_equal; [by apply reportOf_NoDup | done]. }
  rewrite Hrep. apply concat_split_Permutation. intros sp. cbn.
  rewrite reservations_reclaimed. apply filter_app_complement.
Qed.

Lemma pass_conserves_reservations_scenario_A :
  removed (runPass ["podA"; "podC"] Examples.scenarioA)
    ++ concat (reservations <$> pools (after (runPass ["podA"; "podC"] Examples.scenarioA)))
    ≡ₚ concat (reservations <$> pools Examples.scenarioA)
  ∧ length (pools (after (runPass ["podA"; "podC"] Examples.scenarioA)))
    = length (pools Examples.scenarioA).
Proof.
  apply (pass_conserves_reservations ["podA"; "podC"] Examples.scenarioA).
  - reflexivity.
  - apply (bool_decide_unpack _). vm_compute. exact I.
Defined.

(** X16. An empty inventory is taken at face value: when [ListPods] returns
    no pod and no error, [reconcile] leaves in every pool only the
    reservations without owner. *)
Theorem reconcile_with_no_pods_keeps_only_ownerless w :
  connect w = None → podList w = Some [] → poolListable w = true →
  failure (reconcile w) = None
  ∧ reservations <$> pools (after (reconcile w))
    = (λ sp, filter (λ r, PodRef r = "") (reservations sp)) <$> pools w.
Proof.
  intros Hc Hpods Hl. rewrite (reconcile_runPass w [] Hc Hpods).
  rewrite runPass_spec by done. unfold failure, after; cbn [fst snd pools].
  split; [done|]. rewrite <- list_fmap_compose. apply list_fmap_ext.
  intros i sp _. cbn. rewrite reservations_reclaimed. unfold keptOf.
  apply list_filter_iff. intros r. unfold orphaned. split.
  - intros Hno. destruct (decide (PodRef r = "")) as [|Hne]; [done|].
    exfalso. apply Hno. split; [done | by intros ?%elem_of_nil].
  - by intros He [Hne _].
Qed.

Lemma reconcile_with_no_pods_keeps_only_ownerless_scenario_A :
  failure (reconcile Examples.scenarioA) = None
  ∧ reservations <$> pools (after (reconcile Examples.scenarioA))
    = (λ sp, filter (λ r, PodRef r = "") (reservations sp))
        <$> pools Examples.scenarioA.
Proof.
  apply (reconcile_with_no_pods_keeps_only_ownerless Examples.scenarioA);
    reflexivity.
Defined.

End EntryPoints.

(** * Properties of sriov.go *)

Section Sriov.

Variable Join : list string → string.
Variable Base : string → string.
Variable ToLower : string → string.

Implicit Types (h : sriov.Host) (pciAddr : string).

Lemma prefix_append (p s : string) : String.prefix p (p +:+ s) = true.
Proof.
  induction p as [|c p IH]; simpl; [by destruct s|].
  by destruct (Ascii.ascii_dec c c).
Qed.

Lemma Contains_prefix (p s : string) : sriov.Contains (p +:+ s) p = true.
Proof.
  assert (Hstep : ∀ t sub, sriov.Contains t sub
                  = if String.prefix sub t then true
                    else match t with
                         | EmptyString => false
                         | String _ rest => sriov.Contains rest sub
                         end) by (by intros [|c t] sub).
  by rewrite Hstep, prefix_append.
Qed.

Lemma pfNameFromSysfs_error_empty h pciAddr :
  (sriov.pfNameFromSysfs Join h pciAddr).2 = None
  ∨ (sriov.pfNameFromSysfs Join h pciAddr).1 = "".
Proof.
  unfold sriov.pfNameFromSysfs.
  destruct (sriov.ReadDir h _) as [[|file files] [err|]]; cbn;
    try destruct (sriov.IsNotExist err); cbn; auto.
Qed.

(** X17. In sriov.go an error never comes with a name: [GetPfAddr],
    [GetPfEswitchMode] and [GetPfName] each return the empty string
    whenever they return an error. *)
Theorem sriov_error_comes_with_empty_string h pciAddr :
  ((sriov.GetPfAddr Join Base h pciAddr).2 = None
   ∨ (sriov.GetPfAddr Join Base h pciAddr).1 = "")
  ∧ ((sriov.GetPfEswitchMode Join Base h pciAddr).2 = None
     ∨ (sriov.GetPfEswitchMode Join Base h pciAddr).1 = "")
  ∧ ((sriov.GetPfName Join Base ToLower h pciAddr).2 = None
     ∨ (sriov.GetPfName Join Base ToLower h pciAddr).1 = "").
Proof.
  assert (Haddr : (sriov.GetPfAddr Join Base h pciAddr).2 = None
                  ∨ (sriov.GetPfAddr Join Base h pciAddr).1 = "").
  { unfold sriov.GetPfAddr. destruct (sriov.Readlink h _) as [pciinfo [err|]]; cbn;
      [destruct (sriov.IsNotExist err); cbn|]; auto. }
  assert (Hmode : (sriov.GetPfEswitchMode Join Base h pciAddr).2 = None
                  ∨ (sriov.GetPfEswitchMode Join Base h pciAddr).1 = "").
  { unfold sriov.GetPfEswitchMode.
    destruct (sriov.GetPfAddr Join Base h pciAddr) as [pfAddr [err|]]; cbn; [auto|].
    destruct (sriov.GetDevLinkDeviceEswitchAttrs h pfAddr); cbn; auto. }
  repeat split; [done..|].
  unfold sriov.GetPfName. destruct (sriov.IsSriovVF Join h pciAddr); cbn; [|auto].
  destruct (sriov.GetPfEswitchMode Join Base h pciAddr) as [mode [e|]]; cbn.
  - destruct (String.eqb mode ""); cbn.
    + destruct (sriov.Contains _ _); cbn; [apply pfNameFromSysfs_error_empty | auto].
    + destruct (String.eqb mode sriov.eswitchModeSwitchdev); cbn;
        [|apply pfNameFromSysfs_error_empty].
      destruct (sriov.GetUplinkRepresentor h pciAddr) as [name [err|]]; cbn; auto.
  - destruct (String.eqb mode ""); cbn; [apply pfNameFromSysfs_error_empty|].
    destruct (String.eqb mode sriov.eswitchModeSwitchdev); cbn;
      [|apply pfNameFromSysfs_error_empty].
    destruct (sriov.GetUplinkRepresentor h pciAddr) as [name [err|]]; cbn; auto.
Qed.

(** X18. A failing devlink query never fails [GetPfName]: for a virtual
    function whose physical function is found, if the devlink query for it
    returns an error, the name is read from [physfn/net] as if the query
    were not supported.  [strings.ToLower] is only required to leave the
    lower-case phrase that starts the message in place. *)
Theorem GetPfName_falls_back_when_devlink_fails h pciAddr pfAddr err :
  (∀ s, ToLower ("error getting devlink device attributes for net device" +:+ s)
        = "error getting devlink device attributes for net device" +:+ ToLower s) →
  sriov.IsSriovVF Join h pciAddr = true →
  sriov.GetPfAddr Join Base h pciAddr = (pfAddr, None) →
  sriov.DevLinkGetDeviceByName h "pci" pfAddr = inr err →
  sriov.GetPfName Join Base ToLower h pciAddr = sriov.pfNameFromSysfs Join h pciAddr.
Proof.
  intros Hlower Hvf Haddr Hdev.
  unfold sriov.GetPfName, sriov.GetPfEswitchMode, sriov.GetDevLinkDeviceEswitchAttrs.
  rewrite Hvf, Haddr, Hdev. cbn [negb sriov.Errorf sriov.Error String.eqb].
  change ("error getting devlink device attributes for net device "
            +:+ pfAddr +:+ " " +:+ sriov.Error err)
    with ("error getting devlink device attributes for net device"
            +:+ (" " +:+ pfAddr +:+ " " +:+ sriov.Error err)).
  by rewrite Hlower, Contains_prefix.
Qed.

(** X19. For a device without a [physfn] link, [GetPfEswitchMode] returns
    no address error and does not ask for the device itself: its result is
    that of the devlink query for the empty address. *)
Theorem GetPfEswitchMode_without_physfn_queries_empty_address h pciAddr target err :
  sriov.Readlink h (Join [sriov.sysBusPci h; pciAddr; "physfn"]) = (target, Some err) →
  sriov.IsNotExist err = true →
  sriov.GetPfAddr Join Base h pciAddr = ("", None)
  ∧ sriov.GetPfEswitchMode Join Base h pciAddr
    = match sriov.DevLinkGetDeviceByName h "pci" "" with
      | inl dev => (sriov.Mode (sriov.Eswitch (sriov.Attrs dev)), None)
      | inr e =>
          ("", Some (sriov.Errorf
                       ("error getting devlink device attributes for net device "
                        +:+ "" +:+ " " +:+ sriov.Error e)))
      end.
Proof.
  intros Hlink Hne.
  assert (Haddr : sriov.GetPfAddr Join Base h pciAddr = ("", None)).
  { unfold sriov.GetPfAddr. by rewrite Hlink, Hne. }
  split; [done|].
  unfold sriov.GetPfEswitchMode, sriov.GetDevLinkDeviceEswitchAttrs. rewrite Haddr.
  by destruct (sriov.DevLinkGetDeviceByName h "pci" "").
Qed.

(** X20. Where a name comes from: when [GetPfName] returns a non-empty
    name, it returns no error, the device has a [physfn] entry, and the
    name is either the first entry of [physfn/net] or, in switchdev mode,
    what [GetUplinkRepresentor] returned. *)
Theorem GetPfName_name_has_a_source h pciAddr :
  (sriov.GetPfName Join Base ToLower h pciAddr).1 ≠ "" →
  (sriov.GetPfName Join Base ToLower h pciAddr).2 = None
  ∧ sriov.Stat h (Join [sriov.sysBusPci h; pciAddr; "physfn"]) = None
  ∧ ((∃ rest, sriov.ReadDir h (Join [sriov.sysBusPci h; pciAddr; "physfn"; "net"])
              = ((sriov.GetPfName Join Base ToLower h pciAddr).1 :: rest, None))
     ∨ ((sriov.GetPfEswitchMode Join Base h pciAddr).1 = "switchdev"
        ∧ sriov.GetUplinkRepresentor h pciAddr
          = ((sriov.GetPfName Join Base ToLower h pciAddr).1, None))).
Proof.
  assert (Hsys : (sriov.pfNameFromSysfs Join h pciAddr).1 ≠ "" →
    (sriov.pfNameFromSysfs Join h pciAddr).2 = None
    ∧ ∃ rest, sriov.ReadDir h (Join [sriov.sysBusPci h; pciAddr; "physfn"; "net"])
              = ((sriov.pfNameFromSysfs Join h pciAddr).1 :: rest, None)).
  { unfold sriov.pfNameFromSysfs.
    destruct (sriov.ReadDir h _) as [[|file files] [err|]]; cbn;
      try destruct (sriov.IsNotExist err); cbn; try done.
    intros _. split; [done | by exists files]. }
  unfold sriov.GetPfName, sriov.IsSriovVF.
  destruct (sriov.Stat h _) as [e|]; cbn; [done|].
  destruct (sriov.GetPfEswitchMode Join Base h pciAddr) as [mode err]; cbn.
  destruct (String.eqb_spec mode "") as [->|Hmode].
  - destruct err as [e|].
    + destruct (sriov.Contains _ _); cbn; [|done].
      intros (Hok & Hdir)%Hsys. repeat split; [done|]. by left.
    + intros (Hok & Hdir)%Hsys. repeat split; [done|]. by left.
  - destruct (String.eqb_spec mode sriov.eswitchModeSwitchdev) as [->|Hsw].
    + destruct (sriov.GetUplinkRepresentor h pciAddr) as [name [e|]]; cbn; [done|].
      intros _. repeat split. by right.
    + intros (Hok & Hdir)%Hsys. repeat split; [done|]. by left.
Qed.

End Sriov.

Lemma GetPfName_falls_back_when_devlink_fails_legacy_VF :
  sriov.GetPfName Hosts.join Hosts.base Hosts.lower Hosts.legacyVF "0000:03:02.1"
  = ("ens1f0", None).
Proof.
  apply (GetPfName_falls_back_when_devlink_fails Hosts.join Hosts.base Hosts.lower
           Hosts.legacyVF "0000:03:02.1"
           "0000:03:00.0" Hosts.noDevice).
  - intros s. reflexivity.
  - reflexivity.
  - reflexivity.
  - reflexivity.
Defined.

Lemma GetPfEswitchMode_without_physfn_queries_empty_address_plain_device :
  sriov.GetPfAddr Hosts.join Hosts.base Hosts.plainDevice "0000:03:00.0" = ("", None)
  ∧ sriov.GetPfEswitchMode Hosts.join Hosts.base Hosts.plainDevice "0000:03:00.0"
    = ("", Some (sriov.Errorf
                   "error getting devlink device attributes for net device  no such device")).
Proof.
  apply (GetPfEswitchMode_without_physfn_queries_empty_address Hosts.join Hosts.base
           Hosts.plainDevice "0000:03:00.0" "" Hosts.notExist).
  - reflexivity.
  - reflexivity.
Defined.

Lemma GetPfName_name_has_a_source_legacy_VF :
  (sriov.GetPfName Hosts.join Hosts.base Hosts.lower Hosts.legacyVF "0000:03:02.1").2
    = None
  ∧ sriov.Stat Hosts.legacyVF
      (Hosts.join [sriov.sysBusPci Hosts.legacyVF; "0000:03:02.1"; "physfn"]) = None
  ∧ ((∃ rest, sriov.ReadDir Hosts.legacyVF
                (Hosts.join [sriov.sysBusPci Hosts.legacyVF; "0000:03:02.1";
                             "physfn"; "net"])
              = ((sriov.GetPfName Hosts.join Hosts.base Hosts.lower Hosts.legacyVF
                    "0000:03:02.1").1 :: rest, None))
     ∨ ((sriov.GetPfEswitchMode Hosts.join Hosts.base Hosts.legacyVF
           "0000:03:02.1").1 = "switchdev"
        ∧ sriov.GetUplinkRepresentor Hosts.legacyVF "0000:03:02.1"
          = ((sriov.GetPfName Hosts.join Hosts.base Hosts.lower Hosts.legacyVF
                "0000:03:02.1").1, None))).
Proof.
  apply (GetPfName_name_has_a_source Hosts.join Hosts.base Hosts.lower
           Hosts.legacyVF "0000:03:02.1").
  vm_compute. discriminate.
Defined.
